(** * Polyhedron partitions (slabbe/polyhedron_partition.py)

    A shallow embedding of the class [PolyhedronPartition] and of the helper
    functions [rotation_mod] and [find_unused_key], together with the
    properties of the partition engine that the specification states.

    Conventions of the embedding.
    - A Python [dict] is an association list with unique keys kept in
      insertion order ([d[k] = v] overwrites in place or appends).
    - A Python [set] is a [gset].
    - A method that can raise returns [exn + A]; [inl e] is the raised
      exception, [inr a] the returned value.
    - The polyhedron library the module imports (Sage's [Polyhedron]) is an
      interface, the class [PolyhedronOps]; the module [Planar] gives one
      implementation of it, for the plane over the rationals. *)

From Stdlib Require Import ZArith QArith Qcanon.
From stdpp Require Import base decidable option list numbers countable strings sorting gmap.

Set Default Proof Using "Type".

(** ** Keys *)

(** Keys of a partition are arbitrary hashable Python values.  The module
    itself creates integer keys ([enumerate], [itertools.count]); callers use
    integers and strings; [KNone] is Python's [None], the value a function
    returns when it falls off its end. *)
Inductive key : Type :=
  | KInt (n : Z)
  | KStr (s : string)
  | KNone.

#[global] Instance key_eq_dec : EqDecision key.
Proof. solve_decision. Defined.

Definition key_to_sum (k : key) : Z + string + unit :=
  match k with
  | KInt n => inl (inl n)
  | KStr s => inl (inr s)
  | KNone => inr tt
  end.

Definition key_of_sum (x : Z + string + unit) : key :=
  match x with
  | inl (inl n) => KInt n
  | inl (inr s) => KStr s
  | inr _ => KNone
  end.

#[global] Instance key_countable : Countable key.
Proof.
  refine (inj_countable' key_to_sum key_of_sum _).
  intros []; reflexivity.
Defined.

#[global] Instance KInt_inj : Inj (=) (=) KInt.
Proof. intros x y Hxy. congruence. Qed.

(** ** Dictionaries *)

Abbreviation dict K V := (list (K * V)).

Section dict.
Context {K V : Type} `{EqDecision K}.

(** [d[k]]; [None] stands for [KeyError]. *)
Fixpoint dict_get (k : K) (d : dict K V) : option V :=
  match d with
  | [] => None
  | (k', v) :: d' => if decide (k = k') then Some v else dict_get k d'
  end.

(** [d[k] = v] *)
Fixpoint dict_set (k : K) (v : V) (d : dict K V) : dict K V :=
  match d with
  | [] => [(k, v)]
  | (k', v') :: d' =>
      if decide (k = k') then (k, v) :: d' else (k', v') :: dict_set k v d'
  end.

Definition dict_keys (d : dict K V) : list K := d.*1.
Definition dict_values (d : dict K V) : list V := d.*2.

(** The invariant of a Python dict: no key occurs twice. *)
Definition dict_wf (d : dict K V) : Prop := NoDup (dict_keys d).
End dict.

(** ** Iteration helpers of the standard library *)

(** [enumerate(l)] *)
Definition enumerate {A} (l : list A) : list (key * A) :=
  imap (λ i a, (KInt (Z.of_nat i), a)) l.

(** [itertools.product(l1, l2)] *)
Definition itertools_product {A B} (l1 : list A) (l2 : list B) : list (A * B) :=
  p ← l1; q ← l2; [(p, q)].

(** [itertools.permutations(l, 2)]: ordered pairs of entries at two
    different positions, the first position varying slowest. *)
Definition itertools_permutations2 {A} (l : list A) : list (A * A) :=
  mjoin (imap (λ a x, mjoin (imap (λ b y, if decide (a = b) then [] else [(x, y)]) l)) l).

(** The first [n] terms of [itertools.count()]. *)
Definition itertools_count (n : nat) : list key :=
  (λ i, KInt (Z.of_nat i)) <$> seq 0 n.

(** [find_unused_key(d, sequence)]: the first key of [sequence] which is
    not in [d]; a sequence that runs out makes the function fall off its end
    and return [None]. *)
Fixpoint find_unused_key (d : gset key) (sequence : list key) : key :=
  match sequence with
  | [] => KNone
  | a :: sequence' => if decide (a ∉ d) then a else find_unused_key d sequence'
  end.

(** [find_unused_key(d, itertools.count())].  The counter is cut after
    [size d + 1] terms; [find_unused_key_count_stable] below shows that the
    search has stopped by then, so that the cut is never seen. *)
Definition find_unused_key_count (d : gset key) : key :=
  find_unused_key d (itertools_count (S (size d))).

(** ** The polyhedron interface *)

(** What the module uses of a polyhedron [p], with coordinates in [R],
    volumes in [Vol] and base rings in [Ring]. *)
Class PolyhedronOps (R Vol Ring Poly : Type) := {
  (** arithmetic of the coordinates: [+], [-], unary [-], [<=] *)
  r_add : R → R → R;
  r_sub : R → R → R;
  r_opp : R → R;
  r_leb : R → R → bool;
  (** [Polyhedron(L, base_ring=ring)] *)
  Polyhedron_vertices : list (list R) → Ring → Poly;
  (** [Polyhedron(ieqs=[ieq])] *)
  Polyhedron_ieqs : list (list R) → Poly;
  (** [p.vertices()] *)
  vertices : Poly → list (list R);
  (** [p.base_ring()] *)
  base_ring : Poly → Ring;
  (** [p.intersection(q)] *)
  intersection : Poly → Poly → Poly;
  (** [p.volume()] *)
  volume : Poly → Vol;
  (** [v > 0] and the number [0] *)
  vol_pos : Vol → bool;
  vol_zero : Vol;
  (** [p <= q], inclusion *)
  poly_le : Poly → Poly → bool;
}.

(** ** Exceptions *)

Section exceptions.
Context {R Vol : Type}.

(** The data each error message is formatted from. *)
Inductive message : Type :=
  | MustBeListOrDict
  | LiesInMoreThanOne (p_vertices : list (list R)) (L : list key)
  | LiesInNoAtom (p_vertices : list (list R))
  | NotZeroVolume (i : key) (p_vertices : list (list R))
      (j : key) (q_vertices : list (list R)) (volume : Vol)
  | DoesNotIntersect (ieq : list R) (n_atoms : nat).

Inductive exn : Type :=
  | TypeError (m : message)
  | ValueError (m : message)
  | KeyError (k : key)
  | IndexError
  | AssertionError.
End exceptions.
Arguments message : clear implicits.
Arguments exn : clear implicits.

#[global] Instance message_eq_dec {R Vol} `{EqDecision R, EqDecision Vol} :
  EqDecision (message R Vol).
Proof. solve_decision. Defined.

#[global] Instance exn_eq_dec {R Vol} `{EqDecision R, EqDecision Vol} :
  EqDecision (exn R Vol).
Proof. solve_decision. Defined.

#[global] Instance sum_mret {E} : MRet (sum E) := λ A a, inr a.
#[global] Instance sum_mbind {E} : MBind (sum E) := λ A B f x,
  match x with
  | inl e => inl e
  | inr a => f a
  end.

(** [for a in l: body(a)], stopping at the first exception. *)
Fixpoint for_each {E A} (l : list A) (body : A → E + unit) : E + unit :=
  match l with
  | [] => inr tt
  | a :: l' => _ ← body a; for_each l' body
  end.

(** ** The partition *)

Section partition.
Context {R Vol Ring Poly : Type} `{PolyhedronOps R Vol Ring Poly}.
Context `{EqDecision Vol} `{Countable Poly}.

Abbreviation outcome := (sum (exn R Vol)).

Record PolyhedronPartition : Type := mkPartition {
  _atoms : dict key Poly;
  _base_ring : option Ring;
}.

(** The values [__init__] can receive as [atoms]. *)
Inductive py_other : Type :=
  | PyNone
  | PyInt (n : Z)
  | PyStr (s : string)
  | PyTuple (t : list Poly)
  | PySet (s : list Poly).

Inductive py_atoms : Type :=
  | PyList (atoms : list Poly)
  | PyDict (atoms : dict key Poly)
  | PyOther (atoms : py_other).

Definition __len__ (self : PolyhedronPartition) : nat := length (_atoms self).

Definition __iter__ (self : PolyhedronPartition) : list (key * Poly) := _atoms self.

Definition atoms (self : PolyhedronPartition) : list Poly := dict_values (_atoms self).

Definition __init__ (atoms : py_atoms) (base_ring_arg : option Ring)
  : outcome PolyhedronPartition :=
  d ← match atoms with
      | PyList l => inr (enumerate l)
      | PyDict d => inr d
      | PyOther _ => inl (TypeError MustBeListOrDict)
      end;
  let base_ring' :=
    match base_ring_arg with
    | None =>
        match d with
        | [] => (* [base_ring == ZZ]: a comparison, its value is dropped *)
            None
        | (_, p) :: _ => Some (base_ring p)
        end
    | Some r => Some r
    end in
  mret (mkPartition d base_ring').

Definition __getitem__ (self : PolyhedronPartition) (i : key) : outcome Poly :=
  match dict_get i (_atoms self) with
  | Some p => inr p
  | None => inl (KeyError i)
  end.

Definition cached_atoms_set (self : PolyhedronPartition) : gset Poly :=
  list_to_set (atoms self).

Definition __eq__ (self other : PolyhedronPartition) : bool :=
  bool_decide (cached_atoms_set self = cached_atoms_set other).

Definition __contains__ (self : PolyhedronPartition) (p : Poly) : bool :=
  bool_decide (p ∈ cached_atoms_set self).

(** [is_pairwise_disjoint] *)
Definition is_pairwise_disjoint (self : PolyhedronPartition) : outcome bool :=
  _ ← for_each (itertools_permutations2 (dict_keys (_atoms self)))
      (λ '(i, j),
         p ← __getitem__ self i;
         q ← __getitem__ self j;
         let volume := volume (intersection p q) in
         if vol_pos volume
         then inl (ValueError (NotZeroVolume i (vertices p) j (vertices q) volume))
         else inr tt);
  mret true.

(** [apply_transformation]: the loop, with the dict [d] being filled. *)
Fixpoint apply_transformation_loop (trans : Poly → outcome Poly)
    (items : list (key * Poly)) (d : dict key Poly) : outcome (dict key Poly) :=
  match items with
  | [] => inr d
  | (key, p) :: items' =>
      trans_p ← trans p;
      if decide (volume p = volume trans_p)
      then apply_transformation_loop trans items' (dict_set key trans_p d)
      else inl AssertionError
  end.

Definition apply_transformation (self : PolyhedronPartition)
    (trans : Poly → outcome Poly) : outcome PolyhedronPartition :=
  d ← apply_transformation_loop trans (__iter__ self) [];
  __init__ (PyDict d) None.

(** [code]; the argument is a polyhedron by its type, so that the test
    [hasattr(p, 'vertices')] passes. *)
Definition code (self : PolyhedronPartition) (p : Poly) : outcome key :=
  let L := (filter (λ ia, poly_le p ia.2) (__iter__ self)).*1 in
  match L with
  | [i] => inr i
  | _ :: _ :: _ => inl (ValueError (LiesInMoreThanOne (vertices p) L))
  | [] => inl (ValueError (LiesInNoAtom (vertices p)))
  end.

(** [refinement]; [other] is a partition by its type, so that the test
    [isinstance(other, PolyhedronPartition)] passes. *)
Definition refinement (self other : PolyhedronPartition) : outcome PolyhedronPartition :=
  let L := filter (λ p_q, vol_pos (volume p_q))
             ((λ pq, intersection pq.1 pq.2) <$> itertools_product (atoms self) (atoms other)) in
  __init__ (PyList L) None.

(** [keys_permutation]: the first loop, matching the atoms found in
    [other]. *)
Fixpoint keys_permutation_match (other : PolyhedronPartition)
    (items : list (key * Poly)) (d : dict key key)
    (atoms_not_in_other : list (key * Poly))
  : outcome (dict key key * list (key * Poly)) :=
  match items with
  | [] => inr (d, atoms_not_in_other)
  | (self_key, p) :: items' =>
      if __contains__ other p
      then other_key ← code other p;
           keys_permutation_match other items' (dict_set self_key other_key d)
             atoms_not_in_other
      else keys_permutation_match other items' d (atoms_not_in_other ++ [(self_key, p)])
  end.

(** [keys_permutation]: the second loop, minting keys for the other
    atoms. *)
Fixpoint keys_permutation_fresh (atoms_not_in_other : list (key * Poly))
    (d : dict key key) (forbidden_keys : gset key) : dict key key :=
  match atoms_not_in_other with
  | [] => d
  | (self_key, p) :: rest =>
      let new_key := find_unused_key_count forbidden_keys in
      keys_permutation_fresh rest (dict_set self_key new_key d)
        (forbidden_keys ∪ {[new_key]})
  end.

Definition keys_permutation (self other : PolyhedronPartition)
  : outcome (dict key key) :=
  '(d, atoms_not_in_other) ← keys_permutation_match other (__iter__ self) [] [];
  let forbidden_keys : gset key := list_to_set (dict_keys (_atoms other)) in
  mret (keys_permutation_fresh atoms_not_in_other d forbidden_keys).

(** [induced_out_partition]: one turn of the [while] loop, from the
    current [P] and [ans] to the next ones. *)
Definition induced_out_step (self half_part other_half_part : PolyhedronPartition)
    (trans : Poly → outcome Poly) (P : PolyhedronPartition) (level : Z)
    (ans : dict Z PolyhedronPartition)
  : outcome (PolyhedronPartition * dict Z PolyhedronPartition) :=
  P_returned ← refinement P half_part;
  let ans := if decide (__len__ P_returned = 0%nat) then ans
             else dict_set level P_returned ans in
  P ← refinement P other_half_part;
  P ← refinement P self;
  P ← apply_transformation P trans;
  mret (P, ans).

(** The [while len(P)] loop; [None] when [fuel] turns did not empty [P]. *)
Fixpoint induced_out_loop (fuel : nat)
    (self half_part other_half_part : PolyhedronPartition)
    (trans : Poly → outcome Poly) (P : PolyhedronPartition) (level : Z)
    (ans : dict Z PolyhedronPartition)
  : option (outcome (dict Z PolyhedronPartition)) :=
  if decide (__len__ P = 0%nat) then Some (inr ans)
  else match fuel with
       | O => None
       | S fuel' =>
           match induced_out_step self half_part other_half_part trans P level ans with
           | inl e => Some (inl e)
           | inr (P', ans') =>
               induced_out_loop fuel' self half_part other_half_part trans P'
                 (level + 1)%Z ans'
           end
       end.

Definition induced_out_partition (fuel : nat) (self : PolyhedronPartition)
    (trans : Poly → outcome Poly) (ieq : list R)
  : option (outcome (dict Z PolyhedronPartition)) :=
  let half := Polyhedron_ieqs [ieq] in
  let other_half := Polyhedron_ieqs [r_opp <$> ieq] in
  match
    half_part ← __init__ (PyList [half]) None;
    other_half_part ← __init__ (PyList [other_half]) None;
    P ← refinement self half_part;
    if decide (__len__ P = 0%nat)
    then inl (ValueError (DoesNotIntersect ieq (__len__ self)))
    else P ← apply_transformation P trans;
         mret (half_part, other_half_part, P)
  with
  | inl e => Some (inl e)
  | inr (half_part, other_half_part, P) =>
      induced_out_loop fuel self half_part other_half_part trans P 1%Z []
  end.

(** [all(v[i] <= bound for v in vs)]: it stops at the first vertex above
    the bound; [v[i]] raises [IndexError] past the end of [v]. *)
Fixpoint all_below (i : nat) (bound : R) (vs : list (list R)) : outcome bool :=
  match vs with
  | [] => inr true
  | v :: vs' =>
      match v !! i with
      | Some vi => if r_leb vi bound then all_below i bound vs' else inr false
      | None => inl IndexError
      end
  end.

(** [rotation_mod(i, angle, mod, base_ring)], the function it returns. *)
Definition rotation_mod (i : nat) (angle mod_ : R) (ring : Ring)
  : Poly → outcome Poly := λ p,
  below ← all_below i (r_sub mod_ angle) (vertices p);
  let L :=
    if below : bool
    then (λ v, imap (λ j vj, if decide (j = i) then r_add vj angle else vj) v)
           <$> vertices p
    else (λ v, imap (λ j vj, if decide (j = i) then r_sub (r_add vj angle) mod_ else vj) v)
           <$> vertices p in
  mret (Polyhedron_vertices L ring).

End partition.

Arguments PolyhedronPartition : clear implicits.
Arguments py_atoms : clear implicits.
Arguments py_other : clear implicits.

#[global] Instance PolyhedronPartition_eq_dec {Ring Poly}
  `{EqDecision Ring, EqDecision Poly} : EqDecision (PolyhedronPartition Ring Poly).
Proof. solve_decision. Defined.


(** ** A polyhedron library for the plane *)

(** Modelled from the spec: the polytope primitive the module consumes
    (Sage's [Polyhedron]: construction from vertices or from inequalities,
    vertex access, intersection, volume, inclusion), which is not part of
    the repository.  This implementation is for dimension 2 over the
    rationals.  A bounded polytope is kept as the vertex list of its convex
    hull in a normal form (counterclockwise, from the smallest vertex in
    lexicographic order, no repeated and no aligned vertices), so that equal
    polytopes are equal values; this covers the empty set, points, segments
    and convex polygons.  A polyhedron given by inequalities is kept as the
    list of its inequalities and is taken to be unbounded: that is what
    [Polyhedron(ieqs=[ieq])] builds, a half-plane.  Operations are exact on
    bounded polytopes and on their intersections with half-planes and with
    each other. *)
Module Planar.

Local Open Scope Qc_scope.

Definition point : Type := Qc * Qc.

(** [(b, a0, a1)] is the inequality [b + a0*x0 + a1*x1 >= 0]. *)
Definition ieq : Type := Qc * Qc * Qc.

Inductive ring : Type := ZZ | QQ.

Inductive polyhedron : Type :=
  | Hull (vs : list point)
  | HRep (cs : list ieq).

#[global] Instance ring_eq_dec : EqDecision ring.
Proof. solve_decision. Defined.

#[global] Instance polyhedron_eq_dec : EqDecision polyhedron.
Proof. solve_decision. Defined.

#[global] Instance polyhedron_countable : Countable polyhedron.
Proof.
  refine (inj_countable'
    (λ p, match p with Hull vs => inl vs | HRep cs => inr cs end)
    (λ x, match x with inl vs => Hull vs | inr cs => HRep cs end) _).
  intros []; reflexivity.
Defined.

Definition Qc_leb (x y : Qc) : bool := Qle_bool x y.
Definition Qc_ltb (x y : Qc) : bool := negb (Qle_bool y x).

Definition half : Qc := Q2Qc (1 # 2).

(** Twice the signed area of the triangle [o a b]: positive when the
    three points turn counterclockwise. *)
Definition cross (o a b : point) : Qc :=
  (a.1 - o.1) * (b.2 - o.2) - (a.2 - o.2) * (b.1 - o.1).

Definition point_leb (p q : point) : bool :=
  Qc_ltb p.1 q.1 || (bool_decide (p.1 = q.1) && Qc_leb p.2 q.2).

(** One chain of the hull (Andrew's monotone chain); the stack has its
    top first. *)
Fixpoint pop_while (stack : list point) (p : point) : list point :=
  match stack with
  | b :: stack' =>
      match stack' with
      | a :: _ => if Qc_leb (cross a b p) 0 then pop_while stack' p else stack
      | [] => stack
      end
  | [] => stack
  end.

Definition chain (pts : list point) : list point :=
  reverse (foldl (λ stack p, p :: pop_while stack p) [] pts).

Definition drop_last {A} (l : list A) : list A := take (length l - 1) l.

Definition convex_hull (pts : list point) : list point :=
  let sorted := merge_sort (λ p q, Is_true (point_leb p q)) (remove_dups pts) in
  match sorted with
  | [] | [_] => sorted
  | _ => drop_last (chain sorted) ++ drop_last (chain (reverse sorted))
  end.

Definition eval_ieq (c : ieq) (p : point) : Qc :=
  c.1.1 + c.1.2 * p.1 + c.2 * p.2.

Definition satisfies (c : ieq) (p : point) : bool := Qc_leb 0 (eval_ieq c p).

(** The edges of a closed polygonal line, each with its start and end. *)
Definition edges (vs : list point) : list (point * point) :=
  match vs with
  | [] => []
  | v :: vs' => zip vs (vs' ++ [v])
  end.

(** The point of the segment [s e] on the line of [c]. *)
Definition crossing (c : ieq) (s e : point) : point :=
  let t := eval_ieq c s / (eval_ieq c s - eval_ieq c e) in
  (s.1 + t * (e.1 - s.1), s.2 + t * (e.2 - s.2)).

(** The part of the polygon [vs] in the half-plane [c]
    (Sutherland-Hodgman). *)
Definition clip (vs : list point) (c : ieq) : list point :=
  '(s, e) ← edges vs;
  if satisfies c e
  then if satisfies c s then [e] else [crossing c s e; e]
  else if satisfies c s then [crossing c s e] else [].

(** The half-plane on the left of the edge from [s] to [e]. *)
Definition left_of (se : point * point) : ieq :=
  let '(s, e) := se in
  ((e.2 - s.2) * s.1 - (e.1 - s.1) * s.2, - (e.2 - s.2), e.1 - s.1).

(** The half-plane of the points [p] with [(p - s).(e - s) >= 0]. *)
Definition beyond (s e : point) : ieq :=
  (- ((e.1 - s.1) * s.1 + (e.2 - s.2) * s.2), e.1 - s.1, e.2 - s.2).

(** Inequalities whose solutions are the polytope of vertices [vs]. *)
Definition ieqs_of_hull (vs : list point) : list ieq :=
  match vs with
  | [] => [(-1, 0, 0)]
  | [a] => [(- a.1, 1, 0); (a.1, -1, 0); (- a.2, 0, 1); (a.2, 0, -1)]
  | [a; b] => beyond a b :: beyond b a :: (left_of <$> edges vs)
  | _ => left_of <$> edges vs
  end.

Definition ieqs_of (p : polyhedron) : list ieq :=
  match p with
  | Hull vs => ieqs_of_hull vs
  | HRep cs => cs
  end.

Definition clip_all (vs : list point) (cs : list ieq) : polyhedron :=
  Hull (convex_hull (foldl clip vs cs)).

Definition intersection (p q : polyhedron) : polyhedron :=
  match p, q with
  | Hull vs, _ => clip_all vs (ieqs_of q)
  | HRep cs, Hull ws => clip_all ws cs
  | HRep cs, HRep ds => HRep (cs ++ ds)
  end.

(** The area, by the shoelace formula; [None] is the infinite volume of
    an unbounded polyhedron. *)
Definition area (vs : list point) : Qc :=
  half * foldr Qcplus 0 ((λ se, se.1.1 * se.2.2 - se.2.1 * se.1.2) <$> edges vs).

Definition volume (p : polyhedron) : option Qc :=
  match p with
  | Hull vs => Some (area vs)
  | HRep _ => None
  end.

Definition vol_pos (v : option Qc) : bool :=
  match v with
  | Some a => Qc_ltb 0 a
  | None => true
  end.

(** Inclusion.  A bounded polytope is inside [q] when its vertices are;
    an unbounded polyhedron is inside no bounded one, and inside an
    unbounded one when it repeats every inequality of it. *)
Definition poly_le (p q : polyhedron) : bool :=
  match p, q with
  | Hull vs, _ => forallb (λ v, forallb (λ c, satisfies c v) (ieqs_of q)) vs
  | HRep _, Hull _ => false
  | HRep cs, HRep ds => forallb (λ d, bool_decide (d ∈ cs)) ds
  end.

Definition point_of_list (v : list Qc) : option point :=
  match v with
  | [x; y] => Some (x, y)
  | _ => None
  end.

Definition ieq_of_list (c : list Qc) : option ieq :=
  match c with
  | [b; a0; a1] => Some (b, a0, a1)
  | _ => None
  end.

(** Rows that are not of the plane are left out. *)
Definition Polyhedron_vertices (L : list (list Qc)) (_ : ring) : polyhedron :=
  Hull (convex_hull (omap point_of_list L)).

Definition Polyhedron_ieqs (L : list (list Qc)) : polyhedron :=
  HRep (omap ieq_of_list L).

Definition vertices (p : polyhedron) : list (list Qc) :=
  match p with
  | Hull vs => (λ v, [v.1; v.2]) <$> vs
  | HRep _ => []
  end.

(** Modelled from the spec: the polytope primitive of the external
    interfaces, here the operations above; every polyhedron of this
    implementation is over the rationals. *)
#[global] Instance ops : PolyhedronOps Qc (option Qc) ring polyhedron :=
  Build_PolyhedronOps Qc (option Qc) ring polyhedron
    Qcplus Qcminus Qcopp Qc_leb
    Polyhedron_vertices Polyhedron_ieqs vertices (λ _, QQ)
    intersection volume vol_pos (Some 0) poly_le.

(** [Polyhedron(L)] for a list of points given by their coordinates. *)
Definition Polyhedron (L : list (Q * Q)) : polyhedron :=
  Polyhedron_vertices ((λ v, [Q2Qc v.1; Q2Qc v.2]) <$> L) QQ.

End Planar.

(** ** The partition as an object in a store *)

(** Python dicts are objects: [PolyhedronPartition(d)] keeps the very dict it
    is given ([self._atoms = atoms]), and [d[key] = v] changes that object.
    Here the dicts live in a store, a partition holds the address of its
    dict, and [apply_transformation] is written with the reads and writes it
    makes. *)
Section store.
Context {R Vol Ring Poly : Type} `{PolyhedronOps R Vol Ring Poly}.
Context `{EqDecision Vol}.

Abbreviation outcome := (sum (exn R Vol)).

Abbreviation store := (list (dict key Poly)).

Record partition_object : Type := mkObject {
  atoms_ref : nat;
  base_ring_field : option Ring;
}.

(** [d = {}] *)
Definition new_dict (σ : store) : nat * store := (length σ, σ ++ [[]]).

(** [d[key] = v], for the dict at address [d] *)
Definition setitem (d : nat) (key : key) (v : Poly) (σ : store) : store :=
  alter (dict_set key v) d σ.

(** The [i]-th entry of the dict at [self_atoms], as the iterator of
    [for key,p in self] reads it. *)
Definition next_item (self_atoms i : nat) (σ : store) : option (key * Poly) :=
  σ !! self_atoms ≫= (λ items, items !! i).

(** The loop of [apply_transformation], at most [n] more turns; it is run
    with the length the dict of [self] has when the loop starts, a dict
    keeping its size while it is iterated. *)
Fixpoint apply_transformation_store_loop (n i self_atoms d : nat)
    (trans : Poly → outcome Poly) (σ : store) : outcome store :=
  match n with
  | O => inr σ
  | S n' =>
      match next_item self_atoms i σ with
      | None => inr σ
      | Some (key, p) =>
          trans_p ← trans p;
          if decide (volume p = volume trans_p)
          then apply_transformation_store_loop n' (S i) self_atoms d trans
                 (setitem d key trans_p σ)
          else inl AssertionError
      end
  end.

(** [PolyhedronPartition(d)] for the dict at address [d]. *)
Definition init_store (d : nat) (σ : store) : partition_object :=
  mkObject d
    match σ !! d with
    | Some ((_, p) :: _) => Some (base_ring p)
    | _ => None
    end.

Definition apply_transformation_store (self : partition_object)
    (trans : Poly → outcome Poly) (σ : store)
  : outcome (partition_object * store) :=
  let n := length (default [] (σ !! atoms_ref self)) in
  let '(d, σ) := new_dict σ in
  σ ← apply_transformation_store_loop n 0 (atoms_ref self) d trans σ;
  mret (init_store d σ, σ).

End store.

Arguments partition_object : clear implicits.

(** ** The documented examples *)

Module Examples.
Import Planar.

Definition pt (x y : Q) : list Qc := [Q2Qc x; Q2Qc y].

(** The partition of the unit square of the module's documentation, four
    atoms that meet on the line [x0 = 1/3]. *)
Definition h : Q := 1 # 3.
Definition p : polyhedron := Polyhedron [(0, h); (0, 1); (h, 1)]%Q.
Definition q : polyhedron := Polyhedron [(0, 0); (0, h); (h, 1); (h, 0)]%Q.
Definition r : polyhedron := Polyhedron [(h, 1); (1, 1); (1, h); (h, 0)]%Q.
Definition s : polyhedron := Polyhedron [(h, 0); (1, 0); (1, h)]%Q.

Definition unit_square_atoms : dict key polyhedron :=
  [(KInt 0, p); (KInt 1, q); (KInt 2, r); (KInt 3, s)].

(** [P = PolyhedronPartition({0:p, 1:q, 2:r, 3:s})] *)
Definition P : PolyhedronPartition ring polyhedron :=
  mkPartition unit_square_atoms (Some QQ).

(** [rotation_mod(0, 1/3, 1, QQ)] and [rotation_mod(0, 2/3, 1, QQ)] *)
Definition u : polyhedron → exn Qc (option Qc) + polyhedron :=
  rotation_mod 0 (Q2Qc (1 # 3)) (Q2Qc 1) QQ.
Definition u_inv : polyhedron → exn Qc (option Qc) + polyhedron :=
  rotation_mod 0 (Q2Qc (2 # 3)) (Q2Qc 1) QQ.

(** [ieq = [h, -1, 0]], the half-plane [x0 <= 1/3], and
    [ieq4 = [-1/2, -1, 0]], the half-plane [x0 <= -1/2]. *)
Definition ieq : list Qc := [Q2Qc h; Q2Qc (-1); Q2Qc 0].
Definition ieq4 : list Qc := [Q2Qc (-1 # 2); Q2Qc (-1); Q2Qc 0].

(** A polytope inside the atom [p], and one across [p] and [q]. *)
Definition t_inside : polyhedron := Polyhedron [(0, 8 # 9); (0, 1); (1 # 9, 1)]%Q.
Definition t_across : polyhedron := Polyhedron [(0, 1 # 9); (0, 1); (1 # 9, 1)]%Q.

(** The example of [keys_permutation]: three atoms of the unit square
    with the keys 4, 1, 2, and two of them with the keys 0, 5. *)
Definition p' : polyhedron := Polyhedron [(0, 1 # 2); (0, 1); (1 # 2, 1)]%Q.
Definition q' : polyhedron :=
  Polyhedron [(0, 0); (0, 1 # 2); (1 # 2, 1); (1, 1); (1, 1 # 2); (1 # 2, 0)]%Q.
Definition r' : polyhedron := Polyhedron [(1 # 2, 0); (1, 0); (1, 1 # 2)]%Q.

Definition P' : PolyhedronPartition ring polyhedron :=
  mkPartition [(KInt 4, p'); (KInt 1, q'); (KInt 2, r')] (Some QQ).
Definition Q' : PolyhedronPartition ring polyhedron :=
  mkPartition [(KInt 0, p'); (KInt 5, q')] (Some QQ).

(** Two rectangles that overlap. *)
Definition left_rectangle : polyhedron := Polyhedron [(0, 0); (2, 0); (2, 1); (0, 1)]%Q.
Definition right_rectangle : polyhedron := Polyhedron [(1, 0); (3, 0); (3, 1); (1, 1)]%Q.
Definition overlapping : PolyhedronPartition ring polyhedron :=
  mkPartition [(KInt 0, left_rectangle); (KInt 1, right_rectangle)] (Some QQ).

(** The unit square and its lower side. *)
Definition square : polyhedron := Polyhedron [(0, 0); (1, 0); (1, 1); (0, 1)]%Q.
Definition side : polyhedron := Polyhedron [(0, 0); (1, 0)]%Q.
Definition square_and_side : PolyhedronPartition ring polyhedron :=
  mkPartition [(KInt 0, square); (KInt 1, side)] (Some QQ).

End Examples.

(** ** Vocabulary of the statements *)

(** The keys the second loop of [keys_permutation] mints for [n] atoms. *)
Fixpoint fresh_keys (n : nat) (forbidden_keys : gset key) : list key :=
  match n with
  | O => []
  | S n' =>
      let new_key := find_unused_key_count forbidden_keys in
      new_key :: fresh_keys n' (forbidden_keys ∪ {[new_key]})
  end.

Section vocabulary.
Context {R Vol Ring Poly : Type} `{PolyhedronOps R Vol Ring Poly}.
Context `{EqDecision Vol} `{Countable Poly}.
Implicit Types (self other P : PolyhedronPartition Ring Poly) (p q : Poly).

Abbreviation outcome := (sum (exn R Vol)).

(** The keys [code] collects. *)
Definition containing self p : list key :=
  (filter (λ ia, poly_le p ia.2) (__iter__ self)).*1.

(** What [apply_transformation] needs of [trans] on the atoms: it returns,
    with the volume unchanged. *)
Definition transforms (trans : Poly → outcome Poly) (kp kq : key * Poly) : Prop :=
  kp.1 = kq.1 ∧ trans kp.2 = inr kq.2 ∧ volume kp.2 = volume kq.2.

(** The entries of [self] whose atom is in [other], and the others. *)
Definition shared_items self other : list (key * Poly) :=
  filter (λ kp, kp.2 ∈ atoms other) (_atoms self).
Definition absent_items self other : list (key * Poly) :=
  filter (λ kp, kp.2 ∉ atoms other) (_atoms self).

(** [kp] is matched with the key [kk.2] of [other]. *)
Definition coded other (kp : key * Poly) (kk : key * key) : Prop :=
  kp.1 = kk.1 ∧ code other kp.2 = inr kk.2.

(** [trans] returns on [p], with the volume unchanged. *)
Definition preserved_by (trans : Poly → exn R Vol + Poly) (p : Poly) : bool :=
  match trans p with
  | inr q => bool_decide (volume p = volume q)
  | inl _ => false
  end.

(** [f] returns on [p], with the volume unchanged, and [f_inv] takes the
    image back to [p]. *)
Definition inverted_by (f f_inv : Poly → exn R Vol + Poly) (p : Poly) : bool :=
  match f p with
  | inr p' =>
      match f_inv p' with
      | inr p'' => bool_decide (p'' = p) && bool_decide (volume p' = volume p)
      | inl _ => false
      end
  | inl _ => false
  end.

End vocabulary.

(** ** The other methods of the partition *)

(** The exceptions of [rename_keys]: the [ValueError] for a dict that is
    not injective, formatted from the dict, and those of the other
    methods. *)
Inductive rename_exn (R Vol : Type) : Type :=
  | NotInjective (d : dict key key)
  | Raised (e : exn R Vol).
Arguments NotInjective {R Vol} d.
Arguments Raised {R Vol} e.

(** The sum of two volumes, [v + w]. *)
Class VolumeOps (Vol : Type) := {
  vol_add : Vol → Vol → Vol;
}.

Section more_methods.
Context {R Vol Ring Poly : Type} `{PolyhedronOps R Vol Ring Poly}.
Context `{EqDecision Vol} `{Countable Poly} `{VolumeOps Vol}.

Abbreviation outcome := (sum (exn R Vol)).
Abbreviation partition := (PolyhedronPartition Ring Poly).

(** [{d[key]:p for (key,p) in self}], entry after entry; [d[key]] raises
    [KeyError] for a key [d] does not have. *)
Fixpoint rename_keys_loop (d : dict key key) (items : list (key * Poly))
    (acc : dict key Poly) : outcome (dict key Poly) :=
  match items with
  | [] => inr acc
  | (key, p) :: items' =>
      match dict_get key d with
      | Some new_key => rename_keys_loop d items' (dict_set new_key p acc)
      | None => inl (KeyError key)
      end
  end.

(** [rename_keys] *)
Definition rename_keys (self : partition) (d : dict key key)
  : rename_exn R Vol + partition :=
  if decide (size (list_to_set (C := gset key) (dict_values d)) < length d)%nat
  then inl (NotInjective d)
  else match acc ← rename_keys_loop d (__iter__ self) []; __init__ (PyDict acc) None with
       | inl e => inl (Raised e)
       | inr Q => inr Q
       end.

(** [volume]: [sum] adds the volumes to the integer [0], from the left. *)
Definition PolyhedronPartition_volume (self : partition) : Vol :=
  foldl vol_add vol_zero (volume <$> atoms self).


(** [for _ in range(n): P = P.apply_transformation(trans_inv)] *)
Fixpoint apply_transformation_times (n : nat) (trans_inv : Poly → outcome Poly)
    (P : partition) : outcome partition :=
  match n with
  | O => inr P
  | S n' =>
      P ← apply_transformation P trans_inv;
      apply_transformation_times n' trans_inv P
  end.

(** [induced_in_partition]: the loop over the out partition. *)
Fixpoint induced_in_loop (trans_inv : Poly → outcome Poly)
    (items : list (Z * partition)) (in_partition : dict Z partition)
  : outcome (dict Z partition) :=
  match items with
  | [] => inr in_partition
  | (i, P) :: items' =>
      P ← apply_transformation_times (Z.to_nat i) trans_inv P;
      induced_in_loop trans_inv items' (dict_set i P in_partition)
  end.

(** [induced_in_partition]; [None] when the loop of
    [induced_out_partition] has not finished within [fuel] turns. *)
Definition induced_in_partition (fuel : nat) (self : partition)
    (trans trans_inv : Poly → outcome Poly) (ieq : list R)
  : option (outcome (dict Z partition)) :=
  match induced_out_partition fuel self trans ieq with
  | None => None
  | Some (inl e) => Some (inl e)
  | Some (inr out_partition) => Some (induced_in_loop trans_inv out_partition [])
  end.

(** What the first part of [induced_partition] builds: the dict [d], the
    dict [return_time_dict] and the list [new_atoms]. *)
Abbreviation recognized :=
  (dict key Poly * dict key Z * list (Z * Poly))%type.

(** [induced_partition]: the loop over the atoms of one partition [P] of
    the in partition. *)
Fixpoint recognize_atoms (self : partition) (return_time : Z)
    (items : list (key * Poly)) (st : recognized) : outcome recognized :=
  match items with
  | [] => inr st
  | (garbage_key, p) :: items' =>
      let '(d, return_time_dict, new_atoms) := st in
      if __contains__ self p
      then key ← code self p;
           recognize_atoms self return_time items'
             (dict_set key p d, dict_set key return_time return_time_dict, new_atoms)
      else recognize_atoms self return_time items'
             (d, return_time_dict, new_atoms ++ [(return_time, p)])
  end.

(** [induced_partition]: the loop over the in partition. *)
Fixpoint recognize_partitions (self : partition) (in_items : list (Z * partition))
    (st : recognized) : outcome recognized :=
  match in_items with
  | [] => inr st
  | (return_time, P) :: in_items' =>
      st ← recognize_atoms self return_time (__iter__ P) st;
      recognize_partitions self in_items' st
  end.

(** [induced_partition]: the loop over [new_atoms]. *)
Fixpoint name_new_atoms (new_atoms : list (Z * Poly))
    (d : dict key Poly) (return_time_dict : dict key Z)
  : dict key Poly * dict key Z :=
  match new_atoms with
  | [] => (d, return_time_dict)
  | (return_time, p) :: new_atoms' =>
      let key := find_unused_key_count (list_to_set (dict_keys d)) in
      name_new_atoms new_atoms' (dict_set key p d)
        (dict_set key return_time return_time_dict)
  end.

(** [induced_partition]: the word [w] of one atom, [n] more letters to
    go. *)
Fixpoint return_word (self : partition) (trans : Poly → outcome Poly)
    (n : nat) (p : Poly) (w : list key) : outcome (list key) :=
  match n with
  | O => inr w
  | S n' =>
      a ← code self p;
      p ← trans p;
      return_word self trans n' p (w ++ [a])
  end.

(** [induced_partition]: the loop over [d.items()]. *)
Fixpoint substitution_loop (self : partition) (trans : Poly → outcome Poly)
    (return_time_dict : dict key Z) (items : list (key * Poly))
    (substitution : dict key (list key)) : outcome (dict key (list key)) :=
  match items with
  | [] => inr substitution
  | (key, p) :: items' =>
      match dict_get key return_time_dict with
      | None => inl (KeyError key)
      | Some return_time =>
          w ← return_word self trans (Z.to_nat return_time) p [];
          substitution_loop self trans return_time_dict items'
            (dict_set key w substitution)
      end
  end.

(** [induced_partition], from the in partition on. *)
Definition induced_partition_from (self : partition) (trans : Poly → outcome Poly)
    (in_partition : dict Z partition)
  : outcome (partition * dict key (list key)) :=
  '(d, return_time_dict, new_atoms) ←
    recognize_partitions self in_partition ([], [], []);
  let '(d, return_time_dict) := name_new_atoms new_atoms d return_time_dict in
  substitution ← substitution_loop self trans return_time_dict d [];
  Q ← __init__ (PyDict d) None;
  mret (Q, substitution).

(** [induced_partition] *)
Definition induced_partition (fuel : nat) (self : partition)
    (trans trans_inv : Poly → outcome Poly) (ieq : list R)
  : option (outcome (partition * dict key (list key))) :=
  match induced_in_partition fuel self trans trans_inv ieq with
  | None => None
  | Some (inl e) => Some (inl e)
  | Some (inr in_partition) => Some (induced_partition_from self trans in_partition)
  end.

End more_methods.

(** ** Images of a partition by affine maps *)

(** What [__neg__], [__rmul__] and [translation] use of a polyhedron:
    [-p], [factor*p] and [p.translation(displacement)]. *)
Class PolyhedronAffine (R Poly : Type) := {
  poly_neg : Poly → Poly;
  poly_scale : R → Poly → Poly;
  poly_translation : list R → Poly → Poly;
}.

Section affine_methods.
Context {R Vol Ring Poly : Type} `{PolyhedronOps R Vol Ring Poly}.
Context `{PolyhedronAffine R Poly}.

Abbreviation partition := (PolyhedronPartition Ring Poly).





End affine_methods.

(** The sum of volumes and the affine maps of the planar polyhedra. *)
Module PlanarMore.
Import Planar.
Local Open Scope Qc_scope.

#[global] Instance volume_ops : VolumeOps (option Qc) := {|
  vol_add v w :=
    match v, w with
    | Some a, Some b => Some (a + b)
    | _, _ => None
    end
|}.

Definition map_points (f : point → point) (p : polyhedron) : list point :=
  match p with
  | Hull vs => convex_hull (f <$> vs)
  | HRep _ => []
  end.

(** Modelled from the spec: the affine images of the polytope primitive,
    on the bounded polytopes by the images of the vertices, on the
    half-planes by the inequality of the image. *)
#[global] Instance affine : PolyhedronAffine Qc polyhedron := {|
  poly_neg p :=
    match p with
    | Hull _ => Hull (map_points (λ v, (- v.1, - v.2)) p)
    | HRep cs => HRep ((λ c : ieq, (c.1.1, - c.1.2, - c.2)) <$> cs)
    end;
  poly_scale factor p :=
    match p with
    | Hull _ => Hull (map_points (λ v, (factor * v.1, factor * v.2)) p)
    | HRep cs =>
        if decide (factor = 0) then Hull [(0, 0)]
        else HRep ((λ c : ieq, (c.1.1, c.1.2 / factor, c.2 / factor)) <$> cs)
    end;
  poly_translation displacement p :=
    match point_of_list displacement with
    | Some t =>
        match p with
        | Hull _ => Hull (map_points (λ v, (v.1 + t.1, v.2 + t.2)) p)
        | HRep cs =>
            HRep ((λ c : ieq, (c.1.1 - c.1.2 * t.1 - c.2 * t.2, c.1.2, c.2)) <$> cs)
        end
    | None => p
    end
|}.

End PlanarMore.

(** ** More of the documented examples *)

Module MoreExamples.
Import Planar Examples.

(** [P = PolyhedronPartition([p,q,r])] and the dict [{0:'b', 1:'a', 2:'z'}]
    of the example of [rename_keys]. *)
Definition P3 : PolyhedronPartition ring polyhedron :=
  mkPartition [(KInt 0, p'); (KInt 1, q'); (KInt 2, r')] (Some QQ).
Definition d_baz : dict key key :=
  [(KInt 0, KStr "b"); (KInt 1, KStr "a"); (KInt 2, KStr "z")].

(** A dict that sends two keys to the same key, and one without the
    key 1. *)
Definition d_twice : dict key key := [(KInt 0, KStr "a"); (KInt 1, KStr "a")].
Definition d_short : dict key key := [(KInt 0, KStr "b")].

(** The two triangles of the example of [refinement]. *)
Definition g : Q := 1 # 5.
Definition t1 : polyhedron := Polyhedron [(g, g); (g, 1 - g); (1 - g, g)]%Q.
Definition t2 : polyhedron := Polyhedron [(g, 1 - g); (1 - g, g); (1 - g, 1 - g)]%Q.
Definition triangles : PolyhedronPartition ring polyhedron :=
  mkPartition [(KInt 0, t1); (KInt 1, t2)] (Some QQ).

(** A function that sends every polyhedron to the origin, and the
    rotation of the coordinate 2, which the points of the plane do not
    have. *)
Definition collapse : polyhedron → exn Qc (option Qc) + polyhedron :=
  λ _, inr (Polyhedron [(0, 0)]%Q).
Definition u2 : polyhedron → exn Qc (option Qc) + polyhedron :=
  rotation_mod 2 (Q2Qc (1 # 3)) (Q2Qc 1) QQ.

End MoreExamples.

(** ** Vocabulary of the further statements *)

Section more_vocabulary.
Context {R Vol Ring Poly : Type} `{PolyhedronOps R Vol Ring Poly}.
Context `{EqDecision Vol} `{Countable Poly}.
Implicit Types (self other P Q : PolyhedronPartition Ring Poly) (d : dict key key).

(** The entry [kq] is the entry [kp] with its key renamed by [d]. *)
Definition renamed d (kp kq : key * Poly) : Prop :=
  dict_get kp.1 d = Some kq.1 ∧ kq.2 = kp.2.

(** The dict read from the values to the keys. *)
Definition inverse_dict d : dict key key := (λ kv, (kv.2, kv.1)) <$> d.

End more_vocabulary.

Section induction_vocabulary.
Context {R Vol Ring Poly : Type} `{PolyhedronOps R Vol Ring Poly}.
Context `{EqDecision Vol} `{Countable Poly}.

(** An entry of the dict [induced_out_partition] fills: a return time from
    1 and below [bound], with a partition that is not empty, has the keys
    0, 1, ..., n-1, and whose atoms are intersections with [half] of
    positive volume. *)
Definition recorded (half : Poly) (bound : Z)
    (tQ : Z * PolyhedronPartition Ring Poly) : Prop :=
  (1 ≤ tQ.1 < bound)%Z
  ∧ __len__ tQ.2 ≠ 0%nat
  ∧ dict_keys (_atoms tQ.2) = itertools_count (__len__ tQ.2)
  ∧ ∀ x, x ∈ atoms tQ.2 →
         vol_pos (volume x) = true ∧ ∃ y, x = intersection y half.

(** The partition [tP.2] of the in partition beside the partition [tQ.2]
    of the out partition: the same return time, the same keys, and atoms
    of the same volumes. *)
Definition pulled_back (tQ tP : Z * PolyhedronPartition Ring Poly) : Prop :=
  tP.1 = tQ.1
  ∧ dict_keys (_atoms tP.2) = dict_keys (_atoms tQ.2)
  ∧ volume <$> atoms tP.2 = volume <$> atoms tQ.2.

End induction_vocabulary.

Section substitution_vocabulary.
Context {R Vol Ring Poly : Type} `{PolyhedronOps R Vol Ring Poly}.
Context `{EqDecision Vol} `{Countable Poly}.
Implicit Types (self : PolyhedronPartition Ring Poly).

Abbreviation outcome := (sum (exn R Vol)).



End substitution_vocabulary.


(** * Properties *)

(** ** Dictionaries and iteration *)

Section dict_facts.
Context {K V : Type} `{EqDecision K}.
Implicit Types (d : dict K V) (k : K) (v : V).

Lemma dict_get_Some_elem_of d k v : dict_get k d = Some v → (k, v) ∈ d.
Proof.
  induction d as [|[k' v'] d IH]; simpl; [done|].
  case_decide as Hk; intros Hget.
  - simplify_eq. left.
  - right. auto.
Qed.

Lemma dict_get_None d k : dict_get k d = None ↔ k ∉ dict_keys d.
Proof.
  unfold dict_keys. induction d as [|[k' v'] d IH]; simpl.
  - split; [intros _; apply not_elem_of_nil | done].
  - rewrite not_elem_of_cons. case_decide as Hk; [|tauto].
    split; [done|]. intros [Hne _]. by destruct Hne.
Qed.

Lemma dict_get_elem_of d k v : dict_wf d → (k, v) ∈ d ↔ dict_get k d = Some v.
Proof.
  unfold dict_wf, dict_keys. intros Hwf. split; [|apply dict_get_Some_elem_of].
  induction d as [|[k' v'] d IH]; simpl in *.
  - intros Hin. by apply elem_of_nil in Hin.
  - apply NoDup_cons in Hwf as [Hk' Hwf].
    intros [Heq|Hin]%elem_of_cons.
    + simplify_eq. by rewrite decide_True.
    + rewrite decide_False; [by apply IH|].
      intros ->. apply Hk'. apply list_elem_of_fmap. by exists (k', v).
Qed.

Lemma dict_set_fresh d k v : k ∉ dict_keys d → dict_set k v d = d ++ [(k, v)].
Proof.
  unfold dict_keys. induction d as [|[k' v'] d IH]; simpl; [done|].
  rewrite not_elem_of_cons. intros [Hne Hk].
  rewrite decide_False by done. by rewrite IH.
Qed.

(** A property of all the entries holds of whatever a lookup finds. *)
Lemma dict_get_Forall (Q : K → V → Prop) d :
  Forall (λ kv, Q kv.1 kv.2) d → ∀ k v, dict_get k d = Some v → Q k v.
Proof.
  intros HQ k v Hget%dict_get_Some_elem_of.
  by apply (proj1 (Forall_forall _ _) HQ (k, v)).
Qed.
End dict_facts.

Lemma enumerate_lookup {A} (l : list A) i :
  enumerate l !! i = (λ a, (KInt (Z.of_nat i), a)) <$> l !! i.
Proof. exact (list_lookup_imap (λ i a, (KInt (Z.of_nat i), a)) l i). Qed.

Lemma enumerate_keys {A} (l : list A) :
  dict_keys (enumerate l) = itertools_count (length l).
Proof.
  unfold dict_keys, itertools_count. apply list_eq. intros i.
  rewrite !list_lookup_fmap, enumerate_lookup.
  destruct (l !! i) as [a|] eqn:Hi; simpl.
  - apply lookup_lt_Some in Hi. by rewrite lookup_seq_lt.
  - apply lookup_ge_None in Hi. by rewrite lookup_seq_ge.
Qed.

Lemma enumerate_values {A} (l : list A) : dict_values (enumerate l) = l.
Proof.
  unfold dict_values. apply list_eq. intros i.
  rewrite list_lookup_fmap, enumerate_lookup. by destruct (l !! i).
Qed.

Lemma itertools_count_NoDup n : NoDup (itertools_count n).
Proof.
  unfold itertools_count. apply NoDup_fmap_2; [|apply NoDup_seq].
  intros i j Hij. apply (inj KInt) in Hij. lia.
Qed.

Lemma enumerate_wf {A} (l : list A) : dict_wf (enumerate l).
Proof. unfold dict_wf. rewrite enumerate_keys. apply itertools_count_NoDup. Qed.

Lemma enumerate_get {A} (l : list A) (i : nat) :
  dict_get (KInt (Z.of_nat i)) (enumerate l) = l !! i.
Proof.
  destruct (l !! i) as [a|] eqn:Hi.
  - apply dict_get_elem_of; [apply enumerate_wf|].
    apply list_elem_of_lookup. exists i. by rewrite enumerate_lookup, Hi.
  - apply dict_get_None. rewrite enumerate_keys. unfold itertools_count.
    intros (j & Hj & Hin)%list_elem_of_fmap. apply (inj KInt) in Hj.
    apply elem_of_seq in Hin. apply lookup_ge_None in Hi. lia.
Qed.

Lemma for_each_inr {E A} (l : list A) (body : A → E + unit) :
  for_each l body = inr tt ↔ ∀ a, a ∈ l → body a = inr tt.
Proof.
  induction l as [|a l IH]; simpl.
  - split; [|done]. intros _ a Ha. by apply elem_of_nil in Ha.
  - destruct (body a) as [e|[]] eqn:Ha; simpl.
    + split; [done|]. intros Hall. specialize (Hall a). rewrite Ha in Hall.
      discriminate Hall. left.
    + rewrite IH. split.
      * intros Hall b [->|Hb]%elem_of_cons; auto.
      * intros Hall b Hb. apply Hall. by right.
Qed.

Lemma for_each_inl {E A} (l : list A) (body : A → E + unit) e :
  for_each l body = inl e → ∃ a, a ∈ l ∧ body a = inl e.
Proof.
  induction l as [|a l IH]; simpl; [done|].
  destruct (body a) as [e'|[]] eqn:Ha; simpl.
  - intros [= ->]. exists a. split; [left|done].
  - intros (b & Hb & Hbody)%IH. exists b. split; [by right|done].
Qed.

Lemma elem_of_itertools_permutations2 {A} (l : list A) x y :
  (x, y) ∈ itertools_permutations2 l ↔
  ∃ a b, a ≠ b ∧ l !! a = Some x ∧ l !! b = Some y.
Proof.
  unfold itertools_permutations2. rewrite list_elem_of_join. split.
  - intros (row & Hxy & Hrow).
    apply elem_of_lookup_imap in Hrow as (a & x' & -> & Ha).
    apply list_elem_of_join in Hxy as (cell & Hxy & Hcell).
    apply elem_of_lookup_imap in Hcell as (b & y' & -> & Hb).
    case_decide; [by apply elem_of_nil in Hxy|].
    apply list_elem_of_singleton in Hxy. simplify_eq. eauto.
  - intros (a & b & Hab & Ha & Hb).
    eexists. split;
      [|apply list_elem_of_lookup; exists a; by rewrite list_lookup_imap, Ha].
    apply list_elem_of_join.
    eexists. split;
      [|apply list_elem_of_lookup; exists b; by rewrite list_lookup_imap, Hb].
    rewrite decide_False by done. left.
Qed.

(** ** Construction and disjointness *)

Section partition_facts.
Context {R Vol Ring Poly : Type} `{PolyhedronOps R Vol Ring Poly}.
Context `{EqDecision Vol} `{Countable Poly}.
Implicit Types (self other P : PolyhedronPartition Ring Poly) (p q : Poly).

Lemma init_list (l : list Poly) (br : option Ring) :
  ∃ P, __init__ (PyList l) br = inr P ∧ _atoms P = enumerate l.
Proof. eexists. split; reflexivity. Qed.

Lemma init_dict (d : dict key Poly) (br : option Ring) :
  ∃ P, __init__ (PyDict d) br = inr P ∧ _atoms P = d.
Proof. eexists. split; reflexivity. Qed.

(** C8: a list of atoms gets the keys [0, 1, ..., n-1] in order, the i-th
    atom under the key [i]; a dict keeps its keys and atoms; any other
    value raises [TypeError]. *)
Theorem init_assigns_keys :
  (∀ (l : list Poly) (br : option Ring),
     ∃ P, __init__ (PyList l) br = inr P
          ∧ dict_keys (_atoms P) = itertools_count (length l)
          ∧ atoms P = l
          ∧ ∀ i : nat, dict_get (KInt (Z.of_nat i)) (_atoms P) = l !! i)
  ∧ (∀ (d : dict key Poly) (br : option Ring),
       ∃ P, __init__ (PyDict d) br = inr P ∧ _atoms P = d)
  ∧ (∀ (o : py_other Poly) (br : option Ring),
       __init__ (PyOther o) br = inl (TypeError MustBeListOrDict)).
Proof.
  split; [|split].
  - intros l br. destruct (init_list l br) as (P & HP & Hatoms).
    exists P. split; [done|]. unfold atoms. rewrite Hatoms.
    split; [apply enumerate_keys|]. split; [apply enumerate_values|].
    apply enumerate_get.
  - apply init_dict.
  - reflexivity.
Qed.

(** C9, as the code has it: without [base_ring], an empty list and an
    empty dict are both accepted, and the partition built has no atom. *)
Theorem init_empty_without_base_ring :
  (∃ P, __init__ (PyList []) None = inr P ∧ __len__ P = 0%nat)
  ∧ (∃ P, __init__ (PyDict []) None = inr P ∧ __len__ P = 0%nat).
Proof. split; eexists; split; reflexivity. Qed.

Lemma getitem_key self i :
  i ∈ dict_keys (_atoms self) → ∃ p, dict_get i (_atoms self) = Some p.
Proof.
  intros Hi. destruct (dict_get i (_atoms self)) as [p|] eqn:Hget; [eauto|].
  by apply dict_get_None in Hget.
Qed.

Lemma get_key self i p :
  dict_get i (_atoms self) = Some p → i ∈ dict_keys (_atoms self).
Proof.
  intros Hget%dict_get_Some_elem_of. apply list_elem_of_fmap. by exists (i, p).
Qed.

(** The pairs [is_pairwise_disjoint] visits are the pairs of different
    keys. *)
Lemma visited_pairs self i j :
  dict_wf (_atoms self) →
  (i, j) ∈ itertools_permutations2 (dict_keys (_atoms self)) ↔
  i ≠ j ∧ i ∈ dict_keys (_atoms self) ∧ j ∈ dict_keys (_atoms self).
Proof.
  intros Hwf. rewrite elem_of_itertools_permutations2. split.
  - intros (a & b & Hab & Ha & Hb). split; [|split].
    + intros ->. apply Hab. by eapply NoDup_lookup.
    + apply list_elem_of_lookup. eauto.
    + apply list_elem_of_lookup. eauto.
  - intros (Hij & [a Ha]%list_elem_of_lookup & [b Hb]%list_elem_of_lookup).
    exists a, b. split; [|done]. intros ->. congruence.
Qed.

Lemma is_pairwise_disjoint_body self :
  is_pairwise_disjoint self = inr true
  ∨ ∃ e, is_pairwise_disjoint self = inl e.
Proof.
  unfold is_pairwise_disjoint.
  destruct (for_each _ _) as [e|[]]; simpl; eauto.
Qed.

Lemma is_pairwise_disjoint_true self :
  dict_wf (_atoms self) →
  is_pairwise_disjoint self = inr true ↔
  ∀ i j p q, i ≠ j →
    dict_get i (_atoms self) = Some p → dict_get j (_atoms self) = Some q →
    vol_pos (volume (intersection p q)) = false.
Proof.
  intros Hwf. unfold is_pairwise_disjoint.
  destruct (for_each _ _) as [e|[]] eqn:Hloop; simpl.
  - split; [done|]. intros Hdisj. exfalso.
    apply for_each_inl in Hloop as ([i j] & Hij & Hbody).
    apply visited_pairs in Hij as (Hne & Hi & Hj); [|done].
    apply getitem_key in Hi as [p Hp]. apply getitem_key in Hj as [q Hq].
    unfold __getitem__ in Hbody. rewrite Hp, Hq in Hbody. simpl in Hbody.
    by rewrite (Hdisj i j p q) in Hbody.
  - split; [|done]. intros _ i j p q Hne Hp Hq.
    assert (Hbody := proj1 (for_each_inr _ _) Hloop (i, j)). simpl in Hbody.
    unfold __getitem__ in Hbody. rewrite Hp, Hq in Hbody. simpl in Hbody.
    destruct (vol_pos _); [|done].
    discriminate Hbody. apply visited_pairs; [done|]. eauto using get_key.
Qed.

Lemma is_pairwise_disjoint_raises self e :
  dict_wf (_atoms self) →
  is_pairwise_disjoint self = inl e →
  ∃ i j p q, i ≠ j
    ∧ dict_get i (_atoms self) = Some p ∧ dict_get j (_atoms self) = Some q
    ∧ vol_pos (volume (intersection p q)) = true
    ∧ e = ValueError (NotZeroVolume i (vertices p) j (vertices q)
                        (volume (intersection p q))).
Proof.
  intros Hwf. unfold is_pairwise_disjoint.
  destruct (for_each _ _) as [e'|[]] eqn:Hloop; simpl; [|done].
  intros [= ->].
  apply for_each_inl in Hloop as ([i j] & Hij & Hbody).
  apply visited_pairs in Hij as (Hne & Hi & Hj); [|done].
  apply getitem_key in Hi as [p Hp]. apply getitem_key in Hj as [q Hq].
  unfold __getitem__ in Hbody. rewrite Hp, Hq in Hbody. simpl in Hbody.
  exists i, j, p, q. destruct (vol_pos _) eqn:Hpos; [|done].
  by simplify_eq.
Qed.

(** C5: on a partition whose pairwise intersections have non-negative
    volumes, [is_pairwise_disjoint] returns [True] exactly when every two
    atoms under different keys meet in volume zero; when some two meet in
    positive volume it raises [ValueError] with the two keys, the two
    vertex lists and the positive volume of such a pair; it never returns
    [False]. *)
Theorem is_pairwise_disjoint_spec self
    (Hwf : dict_wf (_atoms self))
    (Hzero : vol_pos vol_zero = false)
    (Hnonneg : ∀ i j p q,
       dict_get i (_atoms self) = Some p → dict_get j (_atoms self) = Some q →
       vol_pos (volume (intersection p q)) = false →
       volume (intersection p q) = vol_zero) :
  (is_pairwise_disjoint self = inr true ↔
     ∀ i j p q, i ≠ j →
       dict_get i (_atoms self) = Some p → dict_get j (_atoms self) = Some q →
       volume (intersection p q) = vol_zero)
  ∧ ((∃ i j p q, i ≠ j
        ∧ dict_get i (_atoms self) = Some p ∧ dict_get j (_atoms self) = Some q
        ∧ vol_pos (volume (intersection p q)) = true) →
     ∃ i j p q, i ≠ j
        ∧ dict_get i (_atoms self) = Some p ∧ dict_get j (_atoms self) = Some q
        ∧ vol_pos (volume (intersection p q)) = true
        ∧ is_pairwise_disjoint self =
            inl (ValueError (NotZeroVolume i (vertices p) j (vertices q)
                               (volume (intersection p q)))))
  ∧ is_pairwise_disjoint self ≠ inr false.
Proof.
  split; [|split].
  - rewrite is_pairwise_disjoint_true by done. split.
    + intros Hdisj i j p q Hne Hp Hq.
      apply (Hnonneg i j); [done|done|]. by apply (Hdisj i j).
    + intros Hdisj i j p q Hne Hp Hq. by rewrite (Hdisj i j p q).
  - intros (i & j & p & q & Hne & Hp & Hq & Hpos).
    destruct (is_pairwise_disjoint_body self) as [Htrue|[e He]].
    + pose proof (proj1 (is_pairwise_disjoint_true self Hwf) Htrue) as Hdisj.
      rewrite (Hdisj i j p q) in Hpos; done.
    + destruct (is_pairwise_disjoint_raises self e Hwf He)
        as (i' & j' & p' & q' & ? & ? & ? & ? & ->).
      exists i', j', p', q'. by rewrite He.
  - destruct (is_pairwise_disjoint_body self) as [->|[e ->]]; done.
Qed.

End partition_facts.

(** ** Coding, refinement and transformations *)

Section engine_facts.
Context {R Vol Ring Poly : Type} `{PolyhedronOps R Vol Ring Poly}.
Context `{EqDecision Vol} `{Countable Poly}.
Implicit Types (self other P : PolyhedronPartition Ring Poly) (p q : Poly).

Abbreviation outcome := (sum (exn R Vol)).


Lemma elem_of_containing self p k :
  dict_wf (_atoms self) →
  k ∈ containing self p ↔
  ∃ a, dict_get k (_atoms self) = Some a ∧ poly_le p a = true.
Proof.
  intros Hwf. unfold containing, __iter__. rewrite list_elem_of_fmap. split.
  - intros ([k' a] & -> & [Hle Hin]%list_elem_of_filter). simpl in *.
    exists a. split; [by apply dict_get_elem_of|by apply Is_true_true].
  - intros (a & Hget & Hle). exists (k, a). split; [done|].
    apply list_elem_of_filter. split; [by apply Is_true_true|].
    by apply dict_get_Some_elem_of.
Qed.

Lemma containing_NoDup self p : dict_wf (_atoms self) → NoDup (containing self p).
Proof.
  intros Hwf. eapply sublist_NoDup; [exact Hwf|].
  unfold containing, dict_keys, __iter__. apply fmap_sublist, sublist_filter.
Qed.

Lemma code_unfold self p :
  code self p =
  match containing self p with
  | [i] => inr i
  | _ :: _ :: _ =>
      inl (ValueError (LiesInMoreThanOne (vertices p) (containing self p)))
  | [] => inl (ValueError (LiesInNoAtom (vertices p)))
  end.
Proof. reflexivity. Qed.

Lemma code_unique self p k :
  dict_wf (_atoms self) →
  (∃ a, dict_get k (_atoms self) = Some a ∧ poly_le p a = true) →
  (∀ k' a', dict_get k' (_atoms self) = Some a' → poly_le p a' = true → k' = k) →
  code self p = inr k.
Proof.
  intros Hwf Hk Honly. rewrite code_unfold.
  pose proof (containing_NoDup self p Hwf) as Hnd.
  apply (elem_of_containing self p k Hwf) in Hk.
  assert (∀ k', k' ∈ containing self p → k' = k) as Hall.
  { intros k' (a' & Hget & Hle)%elem_of_containing; [|done]. eauto. }
  destruct (containing self p) as [|i [|j L]].
  - by apply elem_of_nil in Hk.
  - f_equal. apply Hall. left.
  - exfalso. apply NoDup_cons in Hnd as [Hi _]. apply Hi.
    rewrite (Hall i), (Hall j); [left|right; left|left].
Qed.

Lemma disjoint_atom_code self k a :
  dict_wf (_atoms self) →
  is_pairwise_disjoint self = inr true →
  dict_get k (_atoms self) = Some a →
  vol_pos (volume a) = true →
  poly_le a a = true →
  (∀ k' a', dict_get k' (_atoms self) = Some a' →
            poly_le a a' = true → intersection a a' = a) →
  code self a = inr k.
Proof.
  intros Hwf Hdisj Hget Hpos Hrefl Hinter.
  apply code_unique; [done|eauto|].
  intros k' a' Hget' Hle. destruct (decide (k' = k)) as [|Hne]; [done|].
  pose proof (proj1 (is_pairwise_disjoint_true self Hwf) Hdisj
                k k' a a' (not_eq_sym Hne) Hget Hget') as Hzero.
  rewrite (Hinter k' a' Hget' Hle) in Hzero. congruence.
Qed.

(** C4, with its last part restricted to atoms of positive volume.
    [code] returns the key of the one atom that contains [p]; it raises
    [ValueError] when no atom contains [p] and when two atoms do.  On a
    pairwise disjoint partition, [code] of an atom of positive volume is
    the key of that atom (inclusion being reflexive, and the intersection
    of a polytope with one that contains it being the polytope). *)
Theorem code_spec self p (Hwf : dict_wf (_atoms self)) :
  (∀ k, (∃ a, dict_get k (_atoms self) = Some a ∧ poly_le p a = true) →
        (∀ k' a', dict_get k' (_atoms self) = Some a' →
                  poly_le p a' = true → k' = k) →
        code self p = inr k)
  ∧ ((∀ k a, dict_get k (_atoms self) = Some a → poly_le p a = false) →
     code self p = inl (ValueError (LiesInNoAtom (vertices p))))
  ∧ (∀ k1 k2 a1 a2, k1 ≠ k2 →
       dict_get k1 (_atoms self) = Some a1 → dict_get k2 (_atoms self) = Some a2 →
       poly_le p a1 = true → poly_le p a2 = true →
       ∃ L, k1 ∈ L ∧ k2 ∈ L
            ∧ code self p = inl (ValueError (LiesInMoreThanOne (vertices p) L)))
  ∧ (∀ k, dict_get k (_atoms self) = Some p →
       is_pairwise_disjoint self = inr true →
       vol_pos (volume p) = true →
       poly_le p p = true →
       (∀ k' a', dict_get k' (_atoms self) = Some a' →
                 poly_le p a' = true → intersection p a' = p) →
       code self p = inr k).
Proof.
  split; [|split; [|split]].
  - intros k. by apply code_unique.
  - intros Hnone. rewrite code_unfold.
    destruct (containing self p) as [|i L] eqn:HL; [done|]. exfalso.
    assert (i ∈ containing self p) as Hi by (rewrite HL; left).
    apply elem_of_containing in Hi as (a & Hget & Hle); [|done].
    rewrite (Hnone i a Hget) in Hle. done.
  - intros k1 k2 a1 a2 Hne Hget1 Hget2 Hle1 Hle2.
    assert (k1 ∈ containing self p) as H1 by (apply elem_of_containing; eauto).
    assert (k2 ∈ containing self p) as H2 by (apply elem_of_containing; eauto).
    exists (containing self p). split; [done|]. split; [done|].
    rewrite code_unfold.
    destruct (containing self p) as [|i [|j L]]; [|exfalso|done].
    + by apply elem_of_nil in H1.
    + apply list_elem_of_singleton in H1, H2. congruence.
  - intros k Hget Hdisj Hpos Hrefl Hinter. by apply disjoint_atom_code.
Qed.

Lemma elem_of_atoms self p :
  dict_wf (_atoms self) →
  p ∈ atoms self ↔ ∃ k, dict_get k (_atoms self) = Some p.
Proof.
  intros Hwf. unfold atoms, dict_values. rewrite list_elem_of_fmap. split.
  - intros ([k a] & -> & Hin). exists k. by apply dict_get_elem_of.
  - intros [k Hget%dict_get_Some_elem_of]. by exists (k, p).
Qed.

Lemma elem_of_itertools_product {A B} (l1 : list A) (l2 : list B) x y :
  (x, y) ∈ itertools_product l1 l2 ↔ x ∈ l1 ∧ y ∈ l2.
Proof.
  unfold itertools_product. rewrite list_elem_of_bind. split.
  - intros (x' & (y' & Hxy & Hy)%list_elem_of_bind & Hx).
    apply list_elem_of_singleton in Hxy. by simplify_eq.
  - intros [Hx Hy]. exists x. split; [|done].
    apply list_elem_of_bind. exists y. split; [left|done].
Qed.

(** The atoms of a refinement: the intersections of positive volume. *)
Lemma refinement_atoms self other :
  ∃ Q, refinement self other = inr Q
       ∧ ∀ x, x ∈ atoms Q ↔
              vol_pos (volume x) = true
              ∧ ∃ p q, p ∈ atoms self ∧ q ∈ atoms other ∧ x = intersection p q.
Proof.
  unfold refinement.
  match goal with |- context [PyList ?l] => destruct (init_list l None) as (Q & HQ & Hatoms) end.
  exists Q. split; [done|]. intros x. unfold atoms at 1.
  rewrite Hatoms, enumerate_values, list_elem_of_filter, list_elem_of_fmap.
  rewrite Is_true_true. split; intros [Hpos Hx]; (split; [done|]).
  - destruct Hx as ([p q] & -> & [Hp Hq]%elem_of_itertools_product). eauto.
  - destruct Hx as (p & q & Hp & Hq & ->). exists (p, q).
    split; [done|]. by apply elem_of_itertools_product.
Qed.

Lemma refinement_len self other Q :
  refinement self other = inr Q →
  __len__ Q = 0%nat ↔
  ∀ p q, p ∈ atoms self → q ∈ atoms other →
         vol_pos (volume (intersection p q)) = false.
Proof.
  destruct (refinement_atoms self other) as (Q' & -> & Hatoms).
  intros [= <-]. unfold __len__.
  assert (length (_atoms Q') = length (atoms Q')) as ->.
  { unfold atoms, dict_values. by rewrite length_fmap. }
  rewrite length_zero_iff_nil. split.
  - intros Hnil p q Hp Hq.
    destruct (vol_pos (volume (intersection p q))) eqn:Hpos; [|done].
    assert (intersection p q ∈ atoms Q') as Hin by (apply Hatoms; eauto 6).
    rewrite Hnil in Hin. by apply elem_of_nil in Hin.
  - intros Hall. destruct (atoms Q') as [|x l]; [done|].
    destruct (proj1 (Hatoms x)) as (Hpos & p & q & Hp & Hq & ->); [left|].
    by rewrite (Hall p q) in Hpos.
Qed.

(** C3, for a partition that is pairwise disjoint and has no atom of
    volume zero: [refinement(P, P) == P], the intersection of an atom with
    itself being the atom. *)
Theorem refinement_self P
    (Hwf : dict_wf (_atoms P))
    (Hdisj : is_pairwise_disjoint P = inr true)
    (Hpos : ∀ p, p ∈ atoms P → vol_pos (volume p) = true)
    (Hidem : ∀ p, p ∈ atoms P → intersection p p = p) :
  ∃ Q, refinement P P = inr Q ∧ __eq__ Q P = true.
Proof.
  destruct (refinement_atoms P P) as (Q & HQ & Hatoms).
  exists Q. split; [done|]. unfold __eq__, cached_atoms_set.
  apply bool_decide_eq_true. apply set_eq. intros x.
  rewrite !elem_of_list_to_set, Hatoms. split.
  - intros (Hx & p & q & Hp & Hq & ->).
    pose proof Hp as [i Hi]%elem_of_atoms; [|done].
    pose proof Hq as [j Hj]%elem_of_atoms; [|done].
    destruct (decide (i = j)) as [->|Hne].
    + assert (p = q) as <- by congruence. by rewrite Hidem.
    + pose proof (proj1 (is_pairwise_disjoint_true P Hwf) Hdisj i j p q Hne Hi Hj).
      congruence.
  - intros Hx. split; [auto|]. exists x, x. by rewrite Hidem.
Qed.


Lemma transforms_exists (trans : Poly → outcome Poly) (items : list (key * Poly)) :
  (∀ p, p ∈ items.*2 → ∃ q, trans p = inr q ∧ volume p = volume q) →
  ∃ items', Forall2 (transforms trans) items items'.
Proof.
  induction items as [|[k p] items IH]; intros Hall.
  - exists []. constructor.
  - destruct (Hall p) as (q & Hq & Hvol); [left|].
    destruct IH as [items' IH]; [intros p' Hp'; apply Hall; by right|].
    exists ((k, q) :: items'). by constructor.
Qed.

Lemma transforms_keys trans items items' :
  Forall2 (transforms trans) items items' → dict_keys items' = dict_keys items.
Proof.
  unfold dict_keys. induction 1 as [|[k p] [k' q] items items' (Hk & _ & _) _ IH];
    simpl in *; [done|]. subst k'. f_equal. exact IH.
Qed.

Lemma apply_transformation_loop_ok trans items items' d :
  NoDup (dict_keys d ++ dict_keys items) →
  Forall2 (transforms trans) items items' →
  apply_transformation_loop trans items d = inr (d ++ items').
Proof.
  intros Hnd Hall. revert d Hnd.
  induction Hall as [|[k p] [k' q] items items' (Hk & Hq & Hvol) _ IH];
    intros d Hnd; simpl in *.
  - by rewrite app_nil_r.
  - subst k'. rewrite Hq. simpl. rewrite decide_True by done.
    unfold dict_keys in *. rewrite dict_set_fresh.
    + rewrite IH; [by rewrite <-app_assoc|].
      rewrite fmap_app. simpl. by rewrite <-app_assoc.
    + apply NoDup_app in Hnd as (_ & Hd & _). intros Hk. apply (Hd k Hk). left.
Qed.

Lemma apply_transformation_ok self trans items' :
  dict_wf (_atoms self) →
  Forall2 (transforms trans) (_atoms self) items' →
  ∃ Q, apply_transformation self trans = inr Q ∧ _atoms Q = items'.
Proof.
  intros Hwf Hall. unfold apply_transformation, __iter__.
  rewrite (apply_transformation_loop_ok trans _ items' []); [|done|done].
  simpl. eexists. split; reflexivity.
Qed.

(** C2: applying [f] and then an inverse [f_inv] of it gives back a
    partition equal to [P], when [f] keeps the volume of each atom. *)
Theorem apply_transformation_round_trip P (f f_inv : Poly → outcome Poly)
    (Hwf : dict_wf (_atoms P))
    (Hf : ∀ p, p ∈ atoms P →
            ∃ p', f p = inr p' ∧ f_inv p' = inr p ∧ volume p' = volume p) :
  ∃ Q Q', apply_transformation P f = inr Q
          ∧ apply_transformation Q f_inv = inr Q'
          ∧ __eq__ Q' P = true.
Proof.
  destruct (transforms_exists f (_atoms P)) as [items1 H1].
  { intros p Hp. destruct (Hf p Hp) as (p' & Hp' & _ & Hvol). eauto. }
  destruct (apply_transformation_ok P f items1 Hwf H1) as (Q & HQ & HQatoms).
  assert (Forall2 (transforms f_inv) items1 (_atoms P)) as H2.
  { clear HQ HQatoms Hwf. unfold atoms, dict_values in Hf.
    induction H1 as [|[k p] [k' p'] items items' (Hk & Hp' & Hvol) _ IH];
      [constructor|]. simpl in *.
    destruct (Hf p) as (p'' & Hp'' & Hinv & _); [left|].
    assert (p'' = p') as -> by congruence.
    constructor; [done|]. apply IH. intros p0 Hp0. apply Hf. by right. }
  destruct (apply_transformation_ok Q f_inv (_atoms P)) as (Q' & HQ' & HQ'atoms).
  { unfold dict_wf. rewrite HQatoms, (transforms_keys f _ _ H1). exact Hwf. }
  { by rewrite HQatoms. }
  exists Q, Q'. split; [done|]. split; [done|].
  unfold __eq__, cached_atoms_set, atoms. rewrite HQ'atoms.
  by apply bool_decide_eq_true.
Qed.

(** C6: when no atom meets the half-space of [ieq] in positive volume,
    so that the first refinement is empty, [induced_out_partition] raises
    [ValueError], whatever the transformation and however long the loop
    would be allowed to run. *)
Theorem induced_out_partition_empty self (ieq : list R) half_part P0
    (Hhalf : __init__ (PyList [Polyhedron_ieqs [ieq]]) None = inr half_part)
    (Hrefine : refinement self half_part = inr P0)
    (Hempty : __len__ P0 = 0%nat) :
  ∀ (fuel : nat) (trans : Poly → outcome Poly),
    induced_out_partition fuel self trans ieq =
      Some (inl (ValueError (DoesNotIntersect ieq (__len__ self)))).
Proof.
  intros fuel trans. unfold induced_out_partition.
  rewrite Hhalf. simpl. simpl in Hhalf. injection Hhalf as <-.
  unfold refinement in Hrefine |- *. simpl in Hrefine |- *.
  injection Hrefine as <-. unfold __len__ in Hempty |- *. simpl in Hempty |- *.
  by rewrite decide_True.
Qed.

End engine_facts.

(** ** Unused keys *)

Lemma find_unused_key_skip (d : gset key) (l1 l2 : list key) :
  (∀ a, a ∈ l1 → a ∈ d) →
  find_unused_key d (l1 ++ l2) = find_unused_key d l2.
Proof.
  induction l1 as [|a l1 IH]; intros Hall; simpl; [done|].
  rewrite decide_False.
  - apply IH. intros b Hb. apply Hall. by right.
  - intros Ha. apply Ha, Hall. left.
Qed.

Lemma find_unused_key_found (d : gset key) (l1 l2 : list key) (n : Z) :
  find_unused_key d l1 = KInt n → find_unused_key d (l1 ++ l2) = KInt n.
Proof.
  induction l1 as [|a l1 IH]; simpl; [done|].
  case_decide; [done|apply IH].
Qed.

Lemma itertools_count_S n :
  itertools_count (S n) = itertools_count n ++ [KInt (Z.of_nat n)].
Proof. unfold itertools_count. by rewrite seq_S, fmap_app. Qed.

Lemma itertools_count_add n m :
  ∃ l, itertools_count (n + m) = itertools_count n ++ l.
Proof.
  unfold itertools_count. rewrite seq_app, fmap_app. eauto.
Qed.

Lemma elem_of_itertools_count n k :
  k ∈ itertools_count n ↔ ∃ m : nat, k = KInt (Z.of_nat m) ∧ (m < n)%nat.
Proof.
  unfold itertools_count. rewrite list_elem_of_fmap.
  split; intros (m & -> & Hm); exists m; (split; [done|]).
  - apply elem_of_seq in Hm. lia.
  - apply elem_of_seq. lia.
Qed.

(** The search over the first [N] integers: either it stops at the least
    integer missing from [d], or they are all in [d]. *)
Lemma find_unused_key_count_prefix (d : gset key) (N : nat) :
  (∃ n : nat,
     find_unused_key d (itertools_count N) = KInt (Z.of_nat n)
     ∧ (KInt (Z.of_nat n) ∉ d)
     ∧ (∀ m : nat, (m < n)%nat → KInt (Z.of_nat m) ∈ d)
     ∧ (n < N)%nat)
  ∨ (find_unused_key d (itertools_count N) = KNone
     ∧ ∀ m : nat, (m < N)%nat → KInt (Z.of_nat m) ∈ d).
Proof.
  induction N as [|N [(n & Hfind & Hout & Hleast & Hn)|[Hfind Hall]]].
  - right. split; [done|]. lia.
  - left. exists n. rewrite itertools_count_S.
    split; [by apply find_unused_key_found|]. repeat split; [done|done|lia].
  - rewrite itertools_count_S, find_unused_key_skip.
    + simpl. case_decide as HN.
      * left. exists N. repeat split; [done|done|lia].
      * right. split; [done|]. intros m Hm.
        destruct (decide (m = N)) as [->|]; [|apply Hall; lia].
        destruct (decide (KInt (Z.of_nat N) ∈ d)); [done|contradiction].
    + intros a (m & -> & Hm)%elem_of_itertools_count. by apply Hall.
Qed.

Lemma count_subset_size (d : gset key) (N : nat) :
  (∀ m : nat, (m < N)%nat → KInt (Z.of_nat m) ∈ d) → (N ≤ size d)%nat.
Proof.
  intros Hall.
  assert (length (itertools_count N) = N) as HN.
  { unfold itertools_count. by rewrite length_fmap, length_seq. }
  pose proof (subseteq_size (C := gset key) (list_to_set (itertools_count N)) d) as Hsize.
  rewrite size_list_to_set, HN in Hsize by apply itertools_count_NoDup.
  apply Hsize. intros k Hk. apply elem_of_list_to_set in Hk.
  apply elem_of_itertools_count in Hk as (m & -> & Hm). by apply Hall.
Qed.

(** [find_unused_key(d, itertools.count())] returns the least natural
    number which is not a key of [d]. *)
Lemma find_unused_key_count_spec (d : gset key) :
  ∃ n : nat, find_unused_key_count d = KInt (Z.of_nat n)
    ∧ (KInt (Z.of_nat n) ∉ d)
    ∧ ∀ m : nat, (m < n)%nat → KInt (Z.of_nat m) ∈ d.
Proof.
  unfold find_unused_key_count.
  destruct (find_unused_key_count_prefix d (S (size d)))
    as [(n & Hfind & Hout & Hleast & Hn)|[_ Hall]]; [eauto|].
  apply count_subset_size in Hall. lia.
Qed.

(** Reading more of the counter does not change the key found. *)
Lemma find_unused_key_count_stable (d : gset key) (N : nat) :
  (size d < N)%nat →
  find_unused_key d (itertools_count N) = find_unused_key_count d.
Proof.
  intros HN. destruct (find_unused_key_count_spec d) as (n & Hn & _).
  rewrite Hn. unfold find_unused_key_count in Hn.
  destruct (itertools_count_add (S (size d)) (N - S (size d))) as [l Hl].
  replace (S (size d) + (N - S (size d)))%nat with N in Hl by lia.
  rewrite Hl. by apply find_unused_key_found.
Qed.

(** ** Key permutations *)


Lemma fresh_keys_length n forbidden_keys :
  length (fresh_keys n forbidden_keys) = n.
Proof. revert forbidden_keys. induction n; intros ?; simpl; auto. Qed.

(** Each minted key is the least natural number which is neither forbidden
    nor minted before. *)
Lemma fresh_keys_spec n (forbidden_keys : gset key) j :
  (j < n)%nat →
  ∃ m : nat,
    fresh_keys n forbidden_keys !! j = Some (KInt (Z.of_nat m))
    ∧ (KInt (Z.of_nat m) ∉ forbidden_keys)
    ∧ (KInt (Z.of_nat m) ∉ take j (fresh_keys n forbidden_keys))
    ∧ ∀ m' : nat, (m' < m)%nat →
        KInt (Z.of_nat m') ∈ forbidden_keys
        ∨ KInt (Z.of_nat m') ∈ take j (fresh_keys n forbidden_keys).
Proof.
  revert forbidden_keys j.
  induction n as [|n IH]; intros forbidden_keys j Hj; [lia|]. simpl.
  destruct j as [|j]; simpl.
  - destruct (find_unused_key_count_spec forbidden_keys) as (m & -> & Hout & Hleast).
    exists m. split; [done|]. split; [done|]. split; [apply not_elem_of_nil|].
    intros m' Hm'. left. by apply Hleast.
  - destruct (IH (forbidden_keys ∪ {[find_unused_key_count forbidden_keys]}) j)
      as (m & Hm & Hout & Hnew & Hleast); [lia|].
    exists m. split; [done|].
    apply not_elem_of_union in Hout as [Hout Hne].
    split; [done|]. split.
    + rewrite not_elem_of_cons. split; [|done].
      intros Heq. apply Hne. rewrite <-Heq. by apply elem_of_singleton.
    + intros m' Hm'. destruct (Hleast m' Hm') as [[Hin|Hin]%elem_of_union|Hin].
      * by left.
      * right. apply elem_of_singleton in Hin. rewrite Hin. left.
      * right. by right.
Qed.

Section keys_permutation_facts.
Context {R Vol Ring Poly : Type} `{PolyhedronOps R Vol Ring Poly}.
Context `{EqDecision Vol} `{Countable Poly}.
Implicit Types (self other P : PolyhedronPartition Ring Poly) (p q : Poly).

Lemma contains_atoms other p : __contains__ other p = true ↔ p ∈ atoms other.
Proof.
  unfold __contains__, cached_atoms_set.
  by rewrite bool_decide_eq_true, elem_of_list_to_set.
Qed.


Lemma keys_permutation_match_ok other items :
  ∀ (d M : dict key key) (acc : list (key * Poly)),
    NoDup (dict_keys d ++ dict_keys items) →
    Forall2 (coded other) (filter (λ kp, kp.2 ∈ atoms other) items) M →
    keys_permutation_match other items d acc =
      inr (d ++ M, acc ++ filter (λ kp, kp.2 ∉ atoms other) items).
Proof.
  unfold dict_keys.
  induction items as [|[k p] items IH]; intros d M acc Hnd HM.
  - rewrite filter_nil in HM. apply Forall2_nil_inv_l in HM as ->.
    simpl. by rewrite filter_nil, !app_nil_r.
  - simpl. rewrite !filter_cons in *. simpl in *.
    assert (k ∉ d.*1) as Hk.
    { apply NoDup_app in Hnd as (_ & Hd & _). intros Hk. apply (Hd k Hk). left. }
    destruct (decide (p ∈ atoms other)) as [Hin|Hout].
    + rewrite (proj2 (contains_atoms other p) Hin).
      apply Forall2_cons_inv_l in HM as ([k' v] & M' & [Hk' Hcode] & HM & ->).
      simpl in *. subst k'. rewrite Hcode. simpl.
      rewrite (dict_set_fresh d k v Hk), decide_False by (by intros []).
      rewrite (IH _ M'); [by rewrite <-app_assoc| |done].
      rewrite fmap_app. simpl. by rewrite <-app_assoc.
    + destruct (__contains__ other p) eqn:Hc; [by apply contains_atoms in Hc|].
      rewrite decide_True by done.
      rewrite (IH d M); [by rewrite <-app_assoc| |done].
      apply NoDup_app in Hnd as (Hd & Hdisj & [_ Hitems]%NoDup_cons).
      apply NoDup_app. split; [done|]. split; [|done].
      intros x Hx Hx'. apply (Hdisj x Hx). by right.
Qed.

Lemma keys_permutation_fresh_ok (rest : list (key * Poly)) :
  ∀ (d : dict key key) (forbidden_keys : gset key),
    NoDup (dict_keys d ++ dict_keys rest) →
    keys_permutation_fresh rest d forbidden_keys =
      d ++ zip (dict_keys rest) (fresh_keys (length rest) forbidden_keys).
Proof.
  unfold dict_keys.
  induction rest as [|[k p] rest IH]; intros d forbidden_keys Hnd; simpl.
  - by rewrite app_nil_r.
  - rewrite dict_set_fresh.
    + rewrite IH; [by rewrite <-app_assoc|].
      rewrite fmap_app. simpl in *. by rewrite <-app_assoc.
    + apply NoDup_app in Hnd as (_ & Hd & _). intros Hk. apply (Hd k Hk). left.
Qed.

Lemma coded_exists other (items : list (key * Poly)) :
  (∀ p, p ∈ items.*2 → ∃ k', code other p = inr k') →
  ∃ M, Forall2 (coded other) items M.
Proof.
  induction items as [|[k p] items IH]; intros Hall.
  - exists []. constructor.
  - destruct (Hall p) as [k' Hk']; [left|].
    destruct IH as [M IH]; [intros p' Hp'; apply Hall; by right|].
    exists ((k, k') :: M). by constructor.
Qed.

Lemma coded_keys other items M :
  Forall2 (coded other) items M → dict_keys M = dict_keys items.
Proof.
  unfold dict_keys. induction 1 as [|[k p] [k' v] items M [Hk _] _ IH];
    simpl in *; [done|]. subst k'. f_equal. exact IH.
Qed.

Lemma split_keys_NoDup self other :
  dict_wf (_atoms self) →
  NoDup (dict_keys (shared_items self other) ++ dict_keys (absent_items self other)).
Proof.
  unfold dict_wf, dict_keys, shared_items, absent_items. intros Hwf.
  rewrite <-fmap_app. by rewrite filter_app_complement.
Qed.

Lemma split_keys_elem_of self other k :
  k ∈ dict_keys (shared_items self other) ++ dict_keys (absent_items self other)
  ↔ k ∈ dict_keys (_atoms self).
Proof.
  unfold dict_keys, shared_items, absent_items.
  rewrite <-fmap_app. by rewrite filter_app_complement.
Qed.

Lemma shared_code self other k p :
  dict_wf (_atoms other) →
  (∀ p, p ∈ atoms self → p ∈ atoms other → poly_le p p = true) →
  (∀ p k1 k2 a1 a2, p ∈ atoms self → p ∈ atoms other →
     dict_get k1 (_atoms other) = Some a1 → dict_get k2 (_atoms other) = Some a2 →
     poly_le p a1 = true → poly_le p a2 = true → k1 = k2) →
  (k, p) ∈ _atoms self → p ∈ atoms other →
  ∃ k', code other p = inr k' ∧ dict_get k' (_atoms other) = Some p.
Proof.
  intros Hwfo Hrefl Hunamb Hkp Hin.
  assert (p ∈ atoms self) as Hp.
  { apply list_elem_of_fmap. by exists (k, p). }
  pose proof Hin as [k' Hk']%elem_of_atoms; [|done].
  exists k'. split; [|done]. apply code_unique; [done|eauto|].
  intros k2 a2 Hget2 Hle2. by apply (Hunamb p k2 k' a2 p); auto.
Qed.

(** C7: [keys_permutation] sends the key of each atom of [self] found in
    [other] to the key that atom has in [other], and the keys of the other
    atoms, in the order of [self], each to the least natural number that
    is neither a key of [other] nor one of the numbers given before: the
    first unused candidate of the sequence 0, 1, 2, ... *)
Theorem keys_permutation_spec self other
    (Hwf : dict_wf (_atoms self))
    (Hwfo : dict_wf (_atoms other))
    (Hrefl : ∀ p, p ∈ atoms self → p ∈ atoms other → poly_le p p = true)
    (Hunamb : ∀ p k1 k2 a1 a2, p ∈ atoms self → p ∈ atoms other →
       dict_get k1 (_atoms other) = Some a1 → dict_get k2 (_atoms other) = Some a2 →
       poly_le p a1 = true → poly_le p a2 = true → k1 = k2) :
  ∃ (d : dict key key) (fresh : list key),
    keys_permutation self other = inr d
    ∧ dict_wf d
    ∧ (∀ k, k ∈ dict_keys d ↔ k ∈ dict_keys (_atoms self))
    ∧ (∀ k p, dict_get k (_atoms self) = Some p → p ∈ atoms other →
         ∃ k', dict_get k d = Some k' ∧ dict_get k' (_atoms other) = Some p)
    ∧ length fresh = length (absent_items self other)
    ∧ (∀ j k p, absent_items self other !! j = Some (k, p) →
         ∃ n : nat,
           fresh !! j = Some (KInt (Z.of_nat n))
           ∧ dict_get k d = Some (KInt (Z.of_nat n))
           ∧ (KInt (Z.of_nat n) ∉ dict_keys (_atoms other))
           ∧ (KInt (Z.of_nat n) ∉ take j fresh)
           ∧ ∀ m : nat, (m < n)%nat →
               KInt (Z.of_nat m) ∈ dict_keys (_atoms other)
               ∨ KInt (Z.of_nat m) ∈ take j fresh).
Proof.
  destruct (coded_exists other (shared_items self other)) as [M HM].
  { intros p ([k p'] & -> & [Hin Hkp]%list_elem_of_filter)%list_elem_of_fmap.
    destruct (shared_code self other k p') as (k' & Hk' & _); eauto. }
  set (forbidden_keys := list_to_set (dict_keys (_atoms other)) : gset key).
  set (fresh := fresh_keys (length (absent_items self other)) forbidden_keys).
  set (d := M ++ zip (dict_keys (absent_items self other)) fresh).
  assert (length fresh = length (absent_items self other)) as Hlen
    by apply fresh_keys_length.
  assert (dict_keys d = dict_keys (shared_items self other)
                        ++ dict_keys (absent_items self other)) as Hkeys.
  { unfold d, dict_keys at 1. rewrite fmap_app, fst_zip.
    - f_equal. apply (coded_keys other _ _ HM).
    - unfold dict_keys. rewrite length_fmap. lia. }
  assert (dict_wf d) as Hwfd.
  { unfold dict_wf. rewrite Hkeys. by apply split_keys_NoDup. }
  exists d, fresh. split; [|split; [done|split; [|split; [|split; [done|]]]]].
  - unfold keys_permutation, __iter__.
    rewrite (keys_permutation_match_ok other (_atoms self) [] M []).
    + simpl. by rewrite keys_permutation_fresh_ok
        by (rewrite (coded_keys other _ _ HM); by apply split_keys_NoDup).
    + done.
    + exact HM.
  - intros k. rewrite Hkeys. apply split_keys_elem_of.
  - intros k p Hget%dict_get_Some_elem_of Hin.
    destruct (shared_code self other k p) as (k' & Hcode & Hget'); auto.
    exists k'. split; [|done]. apply dict_get_elem_of; [done|].
    assert ((k, p) ∈ shared_items self other) as [i Hi]%list_elem_of_lookup_1.
    { apply list_elem_of_filter. by split. }
    destruct (Forall2_lookup_l _ _ _ i _ HM Hi) as ([k0 v] & HMi & Hk0 & Hv).
    simpl in *. subst k0. assert (v = k') as -> by congruence.
    unfold d. apply elem_of_app. left. by eapply list_elem_of_lookup_2.
  - intros j k p Hj.
    destruct (fresh_keys_spec (length (absent_items self other)) forbidden_keys j)
      as (n & Hn & Hout & Hnew & Hleast).
    { by apply lookup_lt_Some in Hj. }
    fold fresh in Hn, Hnew, Hleast. exists n. split; [done|].
    split; [|split; [|split; [done|]]].
    + apply dict_get_elem_of; [done|]. unfold d. apply elem_of_app. right.
      apply (list_elem_of_lookup_2 _ j). apply lookup_zip_Some. split; [|done].
      unfold dict_keys. by rewrite list_lookup_fmap, Hj.
    + intros Hin. apply Hout. by apply elem_of_list_to_set.
    + intros m Hm. destruct (Hleast m Hm) as [Hin|Hin]; [left|by right].
      by apply elem_of_list_to_set in Hin.
Qed.

End keys_permutation_facts.

(** ** Frame of [apply_transformation] *)

Section store_facts.
Context {R Vol Ring Poly : Type} `{PolyhedronOps R Vol Ring Poly}.
Context `{EqDecision Vol} `{Countable Poly}.
Implicit Types (σ : list (dict key Poly)) (items : dict key Poly).

Abbreviation outcome := (sum (exn R Vol)).

Lemma setitem_last σ (acc : dict key Poly) k v :
  setitem (length σ) k v (σ ++ [acc]) = σ ++ [dict_set k v acc].
Proof.
  unfold setitem. rewrite alter_app_r_alt by lia.
  by rewrite Nat.sub_diag.
Qed.

Lemma next_item_old σ (acc : dict key Poly) self_atoms i items :
  σ !! self_atoms = Some items →
  next_item self_atoms i (σ ++ [acc]) = items !! i.
Proof.
  intros Hself. unfold next_item.
  rewrite lookup_app_l by (by eapply lookup_lt_Some). by rewrite Hself.
Qed.

(** The loop only writes the new dict, which receives the images of the
    entries of [self] not yet visited. *)
Lemma apply_transformation_store_loop_ok (trans : Poly → outcome Poly)
    σ self_atoms items :
  σ !! self_atoms = Some items →
  ∀ n i (acc rest' : dict key Poly),
    (i + n = length items)%nat →
    NoDup (dict_keys acc ++ dict_keys (drop i items)) →
    Forall2 (transforms trans) (drop i items) rest' →
    apply_transformation_store_loop n i self_atoms (length σ) trans (σ ++ [acc])
    = inr (σ ++ [acc ++ rest']).
Proof.
  intros Hself. induction n as [|n IH]; intros i acc rest' Hi Hnd Hrest; simpl.
  - rewrite drop_ge in Hrest by lia. apply Forall2_nil_inv_l in Hrest as ->.
    by rewrite app_nil_r.
  - rewrite (next_item_old _ _ _ _ items Hself).
    destruct (items !! i) as [[k p]|] eqn:Hitem;
      [|apply lookup_ge_None in Hitem; lia].
    rewrite (drop_S _ _ _ Hitem) in Hnd, Hrest.
    apply Forall2_cons_inv_l in Hrest as ([k' q] & rest & (Hk & Hq & Hvol) & Hrest & ->).
    simpl in *. subst k'. rewrite Hq. simpl. rewrite decide_True by done.
    rewrite setitem_last, dict_set_fresh.
    + rewrite (IH (S i) _ rest); [by rewrite <-app_assoc|lia| |done].
      unfold dict_keys in *. rewrite fmap_app. simpl. by rewrite <-app_assoc.
    + apply NoDup_app in Hnd as (_ & Hacc & _). intros Hk. apply (Hacc k Hk). left.
Qed.

Lemma transforms_get (trans : Poly → outcome Poly) items items' k p :
  dict_wf items →
  Forall2 (transforms trans) items items' →
  dict_get k items = Some p →
  ∃ q, trans p = inr q ∧ dict_get k items' = Some q.
Proof.
  intros Hwf Hall Hget.
  pose proof (dict_get_Some_elem_of _ _ _ Hget) as [i Hi]%list_elem_of_lookup_1.
  destruct (Forall2_lookup_l _ _ _ i _ Hall Hi) as ([k' q] & Hi' & Hk & Hq & _).
  simpl in *. subst k'. exists q. split; [done|].
  apply dict_get_elem_of; [|by eapply list_elem_of_lookup_2].
  unfold dict_wf. by rewrite (transforms_keys trans items items').
Qed.

(** C10: [apply_transformation] returns a partition with the keys of [P],
    in the same order, which has under each key the image by [trans] of
    the atom [P] has there.  In the store, the result is a new dict and a
    new object: every dict that was there before the call, the one of [P]
    among them, is as it was. *)
Theorem apply_transformation_keeps_keys
    (P : PolyhedronPartition Ring Poly) (trans : Poly → outcome Poly)
    (Hwf : dict_wf (_atoms P))
    (Hvol : ∀ p, p ∈ atoms P → ∃ q, trans p = inr q ∧ volume p = volume q) :
  ∃ Q, apply_transformation P trans = inr Q
    ∧ dict_keys (_atoms Q) = dict_keys (_atoms P)
    ∧ (∀ k p, dict_get k (_atoms P) = Some p →
         ∃ q, trans p = inr q ∧ dict_get k (_atoms Q) = Some q)
    ∧ ∀ σ (self : partition_object Ring),
        σ !! atoms_ref self = Some (_atoms P) →
        ∃ self' σ',
          apply_transformation_store self trans σ = inr (self', σ')
          ∧ (∀ l, (l < length σ)%nat → σ' !! l = σ !! l)
          ∧ σ' !! atoms_ref self = Some (_atoms P)
          ∧ atoms_ref self' = length σ
          ∧ σ' !! atoms_ref self' = Some (_atoms Q)
          ∧ base_ring_field self' = _base_ring Q.
Proof.
  destruct (transforms_exists trans (_atoms P) Hvol) as [items' Hall].
  destruct (apply_transformation_ok P trans items' Hwf Hall) as (Q & HQ & HQatoms).
  exists Q. split; [done|]. rewrite HQatoms.
  split; [by apply (transforms_keys trans)|].
  split; [intros k p; by apply transforms_get|].
  intros σ self Hself. unfold apply_transformation_store, new_dict.
  rewrite Hself. simpl.
  rewrite (apply_transformation_store_loop_ok trans σ (atoms_ref self)
             (_atoms P) Hself _ 0 [] items'); [|done|done|done].
  simpl. eexists _, _. split; [done|].
  assert (atoms_ref self < length σ)%nat as Hlt by (by eapply lookup_lt_Some).
  split; [intros l Hl; by rewrite lookup_app_l|].
  split; [by rewrite lookup_app_l|]. split; [done|].
  split; [by rewrite list_lookup_middle|].
  unfold init_store. simpl. rewrite list_lookup_middle by done.
  unfold apply_transformation, __iter__ in HQ.
  rewrite (apply_transformation_loop_ok trans _ items' []) in HQ by done.
  simpl in HQ. injection HQ as <-. simpl. by destruct items' as [|[? ?] ?].
Qed.

End store_facts.

(** ** Induction on a half-space *)

Section induction_facts.
Context {R Vol Ring Poly : Type} `{PolyhedronOps R Vol Ring Poly}.
Context `{EqDecision Vol} `{Countable Poly}.
Implicit Types (self P : PolyhedronPartition Ring Poly).

(** A loop that has returned returns the same with more fuel. *)
Lemma induced_out_loop_mono fuel fuel' self half_part other_half_part
    (trans : Poly → exn R Vol + Poly) P level ans res :
  (fuel ≤ fuel')%nat →
  induced_out_loop fuel self half_part other_half_part trans P level ans = Some res →
  induced_out_loop fuel' self half_part other_half_part trans P level ans = Some res.
Proof.
  revert fuel' P level ans.
  induction fuel as [|fuel IH]; intros fuel' P level ans Hle.
  - destruct fuel'; simpl; case_decide; done.
  - destruct fuel' as [|fuel']; [lia|]. simpl. case_decide; [done|].
    destruct (induced_out_step _ _ _ _ _ _ _) as [e|[P' ans']]; [done|].
    apply IH. lia.
Qed.

Lemma induced_out_partition_mono fuel fuel' self
    (trans : Poly → exn R Vol + Poly) (ieq : list R) res :
  (fuel ≤ fuel')%nat →
  induced_out_partition fuel self trans ieq = Some res →
  induced_out_partition fuel' self trans ieq = Some res.
Proof.
  intros Hle. unfold induced_out_partition.
  destruct (_ ≫= _) as [e|[[half_part other_half_part] P]]; [done|].
  by apply induced_out_loop_mono.
Qed.

End induction_facts.

(** ** Hypotheses over the atoms, as checks that can be run *)

Section checks.
Context {R Vol Ring Poly : Type} `{PolyhedronOps R Vol Ring Poly}.
Context `{EqDecision Vol} `{Countable Poly}.
Implicit Types (self other P : PolyhedronPartition Ring Poly).

Lemma dict_get_Forall_pairs {K V K' V'} `{EqDecision K, EqDecision K'}
    (Q : K → V → K' → V' → Prop) (d : dict K V) (d' : dict K' V') :
  Forall (λ kv, Forall (λ kv', Q kv.1 kv.2 kv'.1 kv'.2) d') d →
  ∀ k k' v v', dict_get k d = Some v → dict_get k' d' = Some v' → Q k v k' v'.
Proof.
  intros HQ k k' v v' Hget Hget'.
  apply (dict_get_Forall (λ k' v', Q k v k' v') d'); [|done].
  by apply (dict_get_Forall (λ k v, Forall (λ kv', Q k v kv'.1 kv'.2) d') d).
Qed.


Lemma preserved_by_all (trans : Poly → exn R Vol + Poly) (l : list Poly) :
  forallb (preserved_by trans) l = true →
  ∀ p, p ∈ l → ∃ q, trans p = inr q ∧ volume p = volume q.
Proof.
  intros Hall p Hp%list_elem_of_In.
  pose proof (proj1 (forallb_forall _ _) Hall p Hp) as Hcheck.
  unfold preserved_by in Hcheck. destruct (trans p) as [e|q]; [done|].
  exists q. split; [done|]. by apply bool_decide_eq_true in Hcheck.
Qed.


Lemma inverted_by_all (f f_inv : Poly → exn R Vol + Poly) (l : list Poly) :
  forallb (inverted_by f f_inv) l = true →
  ∀ p, p ∈ l → ∃ p', f p = inr p' ∧ f_inv p' = inr p ∧ volume p' = volume p.
Proof.
  intros Hall p Hp%list_elem_of_In.
  pose proof (proj1 (forallb_forall _ _) Hall p Hp) as Hcheck.
  unfold inverted_by in Hcheck. destruct (f p) as [e|p']; [done|].
  destruct (f_inv p') as [e|p''] eqn:Hinv; [done|].
  apply andb_true_iff in Hcheck as [->%bool_decide_eq_true Hvol%bool_decide_eq_true].
  exists p'. by rewrite Hinv.
Qed.

Lemma unambiguous_all self other :
  Forall (λ p, p ∈ atoms other →
            Forall (λ ka1, Forall (λ ka2,
                poly_le p ka1.2 = true → poly_le p ka2.2 = true → ka1.1 = ka2.1)
              (_atoms other)) (_atoms other)) (atoms self) →
  ∀ p k1 k2 a1 a2, p ∈ atoms self → p ∈ atoms other →
    dict_get k1 (_atoms other) = Some a1 → dict_get k2 (_atoms other) = Some a2 →
    poly_le p a1 = true → poly_le p a2 = true → k1 = k2.
Proof.
  intros Hall p k1 k2 a1 a2 Hp Hin Hget1 Hget2.
  pose proof (proj1 (Forall_forall _ _) Hall p Hp Hin) as Hp'.
  by apply (dict_get_Forall_pairs
              (λ k1 a1 k2 a2, poly_le p a1 = true → poly_le p a2 = true → k1 = k2)
              (_atoms other) (_atoms other)).
Qed.

End checks.

(** ** The examples *)

Module ExampleFacts.
Import Planar Examples.

(** Closes a decidable goal by evaluating its decision procedure. *)
Ltac by_computation :=
  lazymatch goal with
  | |- ?G => apply (bool_decide_unpack G); vm_compute; exact I
  end.

Lemma P_init : __init__ (PyDict unit_square_atoms) None = inr P.
Proof. reflexivity. Qed.

Lemma P_wf : dict_wf (_atoms P).
Proof. unfold dict_wf. by_computation. Qed.

(** C1: on the partition of the unit square into four atoms, with the
    translation by 1/3 modulo 1 and the half-plane [x0 <= 1/3], the loop
    of [induced_out_partition] stops after three turns, and the dict it
    returns has the one key 3, with a partition of 4 atoms. *)
Theorem induced_out_partition_rational_rotation :
  ∀ n : nat, ∃ P Q,
    __init__ (PyDict unit_square_atoms) None = inr P
    ∧ induced_out_partition (3 + n) P u ieq = Some (inr [(3%Z, Q)])
    ∧ __len__ Q = 4%nat.
Proof.
  intros n.
  assert (∃ Q, induced_out_partition 3 P u ieq = Some (inr [(3%Z, Q)])
               ∧ __len__ Q = 4%nat) as (Q & HQ & Hlen).
  { vm_compute. eexists. split; reflexivity. }
  exists P, Q. split; [exact P_init|]. split; [|done].
  apply (induced_out_partition_mono 3); [lia|done].
Qed.

(** Witness of C2: the rotation by 2/3 and its inverse, the rotation by
    1/3, on the partition of the unit square. *)
Lemma apply_transformation_round_trip_witness :
  dict_wf (_atoms P)
  ∧ ∃ Q Q', apply_transformation P u_inv = inr Q
            ∧ apply_transformation Q u = inr Q'
            ∧ __eq__ Q' P = true.
Proof.
  split; [exact P_wf|].
  apply (apply_transformation_round_trip P u_inv u P_wf).
  apply inverted_by_all. vm_compute. reflexivity.
Defined.

(** C3 fails on two atoms that overlap: the refinement has their
    intersection, which is not an atom of the partition.  It also fails on
    a partition with an atom of volume zero, which the refinement drops. *)
Lemma refinement_self_overlapping :
  (∃ Q, refinement overlapping overlapping = inr Q
        ∧ __eq__ Q overlapping = false)
  ∧ (∃ Q, refinement square_and_side square_and_side = inr Q
          ∧ __eq__ Q square_and_side = false).
Proof. split; (eexists; split; [reflexivity|]; vm_compute; reflexivity). Qed.

Lemma P_disjoint : is_pairwise_disjoint P = inr true.
Proof. vm_compute. reflexivity. Qed.

(** Witness of C3 as amended: the partition of the unit square. *)
Lemma refinement_self_witness :
  dict_wf (_atoms P)
  ∧ is_pairwise_disjoint P = inr true
  ∧ ∃ Q, refinement P P = inr Q ∧ __eq__ Q P = true.
Proof.
  split; [exact P_wf|]. split; [exact P_disjoint|].
  apply (refinement_self P P_wf P_disjoint).
  - apply Forall_forall. by_computation.
  - apply Forall_forall. by_computation.
Defined.

(** The last part of C4 fails on the unit square with its lower side as a
    second atom: the two meet in volume zero, and the side lies in both. *)
Lemma code_of_atom_of_volume_zero :
  is_pairwise_disjoint square_and_side = inr true
  ∧ dict_get (KInt 1) (_atoms square_and_side) = Some side
  ∧ code square_and_side side =
      inl (ValueError (LiesInMoreThanOne (vertices side) [KInt 0; KInt 1])).
Proof.
  split; [vm_compute; reflexivity|]. split; [reflexivity|]. by_computation.
Qed.

(** Witness of C4 as amended, on the partition of the unit square: a
    triangle inside the atom 0, a triangle across two atoms, and the atom
    0 itself. *)
Lemma code_spec_witness :
  dict_wf (_atoms P)
  ∧ code P t_inside = inr (KInt 0)
  ∧ code P t_across = inl (ValueError (LiesInNoAtom (vertices t_across)))
  ∧ code P p = inr (KInt 0).
Proof.
  split; [exact P_wf|]. split; [|split].
  - destruct (code_spec P t_inside P_wf) as (Hone & _). apply Hone.
    + exists p. split; [reflexivity|]. vm_compute. reflexivity.
    + apply (dict_get_Forall (λ k' a', poly_le t_inside a' = true → k' = KInt 0)).
      by_computation.
  - destruct (code_spec P t_across P_wf) as (_ & Hnone & _). apply Hnone.
    apply (dict_get_Forall (λ (k : key) a, poly_le t_across a = false)). by_computation.
  - destruct (code_spec P p P_wf) as (_ & _ & _ & Hatom). apply Hatom.
    + reflexivity.
    + exact P_disjoint.
    + vm_compute. reflexivity.
    + vm_compute. reflexivity.
    + apply (dict_get_Forall (λ (k' : key) a', poly_le p a' = true → intersection p a' = p)).
      by_computation.
Defined.

(** Witness of C5: the partition of the unit square is pairwise
    disjoint. *)
Lemma is_pairwise_disjoint_spec_witness :
  dict_wf (_atoms P) ∧ is_pairwise_disjoint P = inr true.
Proof.
  split; [exact P_wf|].
  destruct (is_pairwise_disjoint_spec P P_wf) as ([_ Htrue] & _).
  - reflexivity.
  - apply (dict_get_Forall_pairs
             (λ (i : key) p (j : key) q,
                vol_pos (volume (intersection p q)) = false →
                volume (intersection p q) = vol_zero)).
    by_computation.
  - apply Htrue. intros i j p0 q0 Hne Hp Hq. revert i j p0 q0 Hp Hq Hne.
    apply (dict_get_Forall_pairs
             (λ (i : key) p (j : key) q,
                i ≠ j → volume (intersection p q) = vol_zero)).
    by_computation.
Defined.

(** Witness of C6: the half-plane [x0 <= -1/2] does not meet the unit
    square. *)
Lemma induced_out_partition_empty_witness :
  ∃ half_part P0,
    __init__ (PyList [Polyhedron_ieqs [ieq4]]) None = inr half_part
    ∧ refinement P half_part = inr P0
    ∧ __len__ P0 = 0%nat
    ∧ induced_out_partition 0 P u ieq4 =
        Some (inl (ValueError (DoesNotIntersect ieq4 4))).
Proof.
  eexists _, _. split; [reflexivity|]. split; [reflexivity|].
  split; [vm_compute; reflexivity|].
  eapply (induced_out_partition_empty P ieq4); [reflexivity|reflexivity|].
  vm_compute. reflexivity.
Defined.

(** Witness of C7: the example of the documentation, which maps 4 to 0,
    1 to 5 and 2 to the new key 1. *)
Lemma keys_permutation_spec_witness :
  dict_wf (_atoms P') ∧ dict_wf (_atoms Q')
  ∧ ∃ d, keys_permutation P' Q' = inr d ∧ dict_wf d.
Proof.
  assert (dict_wf (_atoms P')) as Hwf by (unfold dict_wf; by_computation).
  assert (dict_wf (_atoms Q')) as Hwf' by (unfold dict_wf; by_computation).
  split; [exact Hwf|]. split; [exact Hwf'|].
  destruct (keys_permutation_spec P' Q' Hwf Hwf') as (d & fresh & Hd & Hwfd & _).
  - apply (proj1 (Forall_forall (λ p, p ∈ atoms Q' → poly_le p p = true) (atoms P'))).
    by_computation.
  - apply unambiguous_all. by_computation.
  - exists d. by split.
Defined.

(** Witness of C10: the rotation by 1/3 on the partition of the unit
    square. *)
Lemma apply_transformation_keeps_keys_witness :
  dict_wf (_atoms P)
  ∧ ∃ Q, apply_transformation P u = inr Q
         ∧ dict_keys (_atoms Q) = dict_keys (_atoms P).
Proof.
  split; [exact P_wf|].
  destruct (apply_transformation_keeps_keys P u P_wf) as (Q & HQ & Hkeys & _).
  - apply preserved_by_all. vm_compute. reflexivity.
  - exists Q. by split.
Defined.

(** C9 fails: without [base_ring], the empty list gives a partition, with
    no atom and no base ring. *)
Lemma init_empty_does_not_raise :
  __init__ (PyList []) None = inr (mkPartition [] None : PolyhedronPartition ring polyhedron)
  ∧ ¬ ∃ e, __init__ (PyList ([] : list polyhedron)) (None : option ring) = inl e.
Proof. split; [reflexivity|]. intros [e He]. discriminate He. Qed.

End ExampleFacts.

(** * Further properties *)

(** ** Searching an unused key *)

(** X1: [find_unused_key(d, sequence)] returns the first element of the
    sequence that is not in [d], every element before it being in [d]; when
    all the elements are in [d] it returns [None]. *)
Theorem find_unused_key_first (d : gset key) (sequence : list key) :
  (∃ l1 a l2, sequence = l1 ++ a :: l2
     ∧ (∀ x, x ∈ l1 → x ∈ d) ∧ (a ∉ d) ∧ find_unused_key d sequence = a)
  ∨ ((∀ x, x ∈ sequence → x ∈ d) ∧ find_unused_key d sequence = KNone).
Proof.
  induction sequence as [|a l IH]; simpl.
  - right. split; [|done]. intros x Hx. by apply elem_of_nil in Hx.
  - case_decide as Ha.
    + left. exists [], a, l. split; [done|]. split; [|done].
      intros x Hx. by apply elem_of_nil in Hx.
    + assert (a ∈ d) as Hin by (destruct (decide (a ∈ d)); [done|contradiction]).
      destruct IH as [(l1 & b & l2 & -> & Hl1 & Hb & Hfind)|[Hall Hfind]].
      * left. exists (a :: l1), b, l2. split; [done|]. split; [|done].
        intros x [->|Hx]%elem_of_cons; auto.
      * right. split; [|done]. intros x [->|Hx]%elem_of_cons; auto.
Qed.

(** X2: on the counter 0, 1, 2, ... the search returns the least natural
    number that is not in [d]; it is at most the size of [d], and reading
    any longer part of the counter gives the same key. *)
Theorem find_unused_key_counter (d : gset key) :
  ∃ n : nat,
    (KInt (Z.of_nat n) ∉ d)
    ∧ (∀ m : nat, (m < n)%nat → KInt (Z.of_nat m) ∈ d)
    ∧ (n ≤ size d)%nat
    ∧ ∀ N : nat, (size d < N)%nat →
        find_unused_key d (itertools_count N) = KInt (Z.of_nat n).
Proof.
  destruct (find_unused_key_count_spec d) as (n & Hn & Hout & Hleast).
  exists n. split; [done|]. split; [done|].
  split; [by apply count_subset_size|].
  intros N HN. by rewrite find_unused_key_count_stable.
Qed.

(** ** Renaming the keys *)

Lemma size_list_to_set_le {K} `{Countable K} (l : list K) :
  (size (list_to_set (C := gset K) l) ≤ length l)%nat.
Proof.
  induction l as [|x l IH].
  - rewrite list_to_set_nil, size_empty. simpl. lia.
  - rewrite list_to_set_cons, size_union_alt, size_singleton.
    pose proof (subseteq_size (list_to_set (C := gset K) l ∖ {[x]}) (list_to_set l)) as Hle.
    simpl. assert (list_to_set (C := gset K) l ∖ {[x]} ⊆ list_to_set l) as Hsub
      by (intros y [Hy _]%elem_of_difference; exact Hy).
    specialize (Hle Hsub). lia.
Qed.

Lemma size_list_to_set_NoDup {K} `{Countable K} (l : list K) :
  size (list_to_set (C := gset K) l) = length l ↔ NoDup l.
Proof.
  split; [|apply size_list_to_set].
  induction l as [|x l IH]; [constructor|].
  rewrite list_to_set_cons. simpl.
  intros Hsize. destruct (decide (x ∈ l)) as [Hin|Hout].
  - exfalso. pose proof (size_list_to_set_le l) as Hle.
    assert ({[x]} ∪ list_to_set l = list_to_set (C := gset K) l) as Heq.
    { apply set_eq. intros y. rewrite elem_of_union, elem_of_singleton, elem_of_list_to_set.
      split; [intros [->|]; done|auto]. }
    rewrite Heq in Hsize. lia.
  - constructor; [done|]. apply IH.
    rewrite size_union, size_singleton in Hsize; [lia|].
    intros y Hy%elem_of_singleton Hy'%elem_of_list_to_set. by subst.
Qed.

Section rename_facts.
Context {R Vol Ring Poly : Type} `{PolyhedronOps R Vol Ring Poly}.
Context `{EqDecision Vol} `{Countable Poly}.
Implicit Types (self other P Q : PolyhedronPartition Ring Poly) (d : dict key key).

Lemma rename_keys_injective self d :
  NoDup (dict_values d) →
  rename_keys self d =
    match acc ← rename_keys_loop d (__iter__ self) []; __init__ (PyDict acc) None with
    | inl e => inl (Raised e)
    | inr Q => inr Q
    end.
Proof.
  intros Hnd. unfold rename_keys. rewrite decide_False; [done|].
  apply size_list_to_set_NoDup in Hnd. rewrite Hnd.
  unfold dict_values. rewrite length_fmap. lia.
Qed.

Lemma rename_keys_not_injective self d :
  ¬ NoDup (dict_values d) → rename_keys self d = inl (NotInjective d).
Proof.
  intros Hnd. unfold rename_keys. rewrite decide_True; [done|].
  pose proof (size_list_to_set_le (dict_values d)) as Hle.
  assert (length (dict_values d) = length d) as Hlen
    by (unfold dict_values; by rewrite length_fmap).
  destruct (decide (size (list_to_set (C := gset key) (dict_values d)) = length d))
    as [Heq|Hne]; [|lia].
  exfalso. apply Hnd, size_list_to_set_NoDup. lia.
Qed.

(** Two keys with the same image show in the list of values. *)
Lemma same_image_not_NoDup d k1 k2 v :
  k1 ≠ k2 → dict_get k1 d = Some v → dict_get k2 d = Some v →
  ¬ NoDup (dict_values d).
Proof.
  intros Hne [i Hi]%dict_get_Some_elem_of%list_elem_of_lookup_1
             [j Hj]%dict_get_Some_elem_of%list_elem_of_lookup_1 Hnd.
  assert (i = j) as ->.
  { apply (NoDup_lookup _ i j v Hnd); unfold dict_values;
      rewrite list_lookup_fmap; [by rewrite Hi|by rewrite Hj]. }
  congruence.
Qed.

Lemma injective_get d k1 k2 v :
  NoDup (dict_values d) → dict_get k1 d = Some v → dict_get k2 d = Some v → k1 = k2.
Proof.
  intros Hnd H1 H2. destruct (decide (k1 = k2)) as [|Hne]; [done|].
  by destruct (same_image_not_NoDup d k1 k2 v).
Qed.

(** X3: [rename_keys] raises [ValueError] for a dict that sends two keys to
    the same key, whatever the partition. *)
Theorem rename_keys_raises_not_injective self d k1 k2 v
    (Hne : k1 ≠ k2)
    (Hk1 : dict_get k1 d = Some v)
    (Hk2 : dict_get k2 d = Some v) :
  rename_keys self d = inl (NotInjective d).
Proof. apply rename_keys_not_injective. by eapply same_image_not_NoDup. Qed.

Lemma renamed_exists d (items : list (key * Poly)) :
  (∀ k, k ∈ dict_keys items → k ∈ dict_keys d) →
  ∃ items', Forall2 (renamed d) items items'.
Proof.
  unfold dict_keys. induction items as [|[k p] items IH]; intros Hall.
  - exists []. constructor.
  - destruct (dict_get k d) as [k'|] eqn:Hk.
    + destruct IH as [items' IH]; [intros k0 Hk0; apply Hall; by right|].
      exists ((k', p) :: items'). by constructor.
    + apply dict_get_None in Hk. destruct Hk. apply Hall. left.
Qed.


Lemma renamed_NoDup d (items items' : list (key * Poly)) :
  NoDup (dict_values d) → NoDup (dict_keys items) →
  Forall2 (renamed d) items items' → NoDup (dict_keys items').
Proof.
  unfold dict_keys. intros Hd Hnd Hall.
  induction Hall as [|[k p] [k' q] items items' [Hk _] Hall IH]; simpl in *;
    [constructor|].
  apply NoDup_cons in Hnd as [Hk0 Hnd]. constructor; [|by apply IH].
  intros ([k1' q1] & -> & [i Hi]%list_elem_of_lookup_1)%list_elem_of_fmap.
  simpl in *.
  destruct (Forall2_lookup_r _ _ _ i _ Hall Hi) as ([k1 p1] & Hi1 & Hk1 & _).
  simpl in *. assert (k1 = k) as -> by (by eapply injective_get).
  apply Hk0. apply list_elem_of_fmap. exists (k, p1).
  split; [done|]. by eapply list_elem_of_lookup_2.
Qed.

Lemma rename_keys_loop_ok d (items items' : list (key * Poly)) :
  Forall2 (renamed d) items items' →
  ∀ acc, NoDup (dict_keys acc ++ dict_keys items') →
         rename_keys_loop (R := R) (Vol := Vol) d items acc = inr (acc ++ items').
Proof.
  unfold dict_keys.
  induction 1 as [|[k p] [k' q] items items' [Hk Hq] _ IH]; intros acc Hnd;
    simpl in *.
  - by rewrite app_nil_r.
  - subst q. rewrite Hk, dict_set_fresh.
    + rewrite IH; [by rewrite <-app_assoc|].
      rewrite fmap_app. simpl. by rewrite <-app_assoc.
    + apply NoDup_app in Hnd as (_ & Hacc & _). intros Hin. apply (Hacc k' Hin). left.
Qed.

Lemma rename_keys_ok self d :
  dict_wf (_atoms self) →
  NoDup (dict_values d) →
  (∀ k, k ∈ dict_keys (_atoms self) → k ∈ dict_keys d) →
  ∃ Q, rename_keys self d = inr Q
       ∧ Forall2 (renamed d) (_atoms self) (_atoms Q)
       ∧ dict_wf (_atoms Q).
Proof.
  intros Hwf Hd Hkeys.
  destruct (renamed_exists d (_atoms self) Hkeys) as [items' Hall].
  pose proof (renamed_NoDup d _ _ Hd Hwf Hall) as Hnd.
  rewrite rename_keys_injective by done. unfold __iter__.
  rewrite (rename_keys_loop_ok d _ items' Hall []) by done. simpl.
  eexists. split; [reflexivity|]. by split.
Qed.


(** X5: with an injective dict, [rename_keys] raises [KeyError] for the
    first key of the partition that the dict does not have. *)
Theorem rename_keys_missing_key self d l1 k p l2
    (Hinj : NoDup (dict_values d))
    (Hself : _atoms self = l1 ++ (k, p) :: l2)
    (Hbefore : ∀ k', k' ∈ dict_keys l1 → k' ∈ dict_keys d)
    (Hmissing : k ∉ dict_keys d) :
  rename_keys self d = inl (Raised (KeyError k)).
Proof.
  rewrite rename_keys_injective by done. unfold __iter__. rewrite Hself.
  assert (∀ acc, rename_keys_loop (R := R) (Vol := Vol) d (l1 ++ (k, p) :: l2) acc
                 = inl (KeyError k)) as ->;
    [|done].
  clear Hself. unfold dict_keys in Hbefore.
  induction l1 as [|[k1 p1] l1 IH]; intros acc; simpl.
  - by rewrite (proj2 (dict_get_None d k) Hmissing).
  - destruct (dict_get k1 d) as [k1'|] eqn:Hk1.
    + apply IH. intros k' Hk'. apply Hbefore. by right.
    + apply dict_get_None in Hk1. destruct Hk1. apply Hbefore. left.
Qed.

(** X6: renaming by an injective dict and then by the dict read backwards
    gives back the entries of the partition, keys and atoms. *)
Theorem rename_keys_round_trip self d
    (Hwf : dict_wf (_atoms self))
    (Hd : dict_wf d)
    (Hinj : NoDup (dict_values d))
    (Hkeys : ∀ k, k ∈ dict_keys (_atoms self) → k ∈ dict_keys d) :
  ∃ Q Q', rename_keys self d = inr Q
          ∧ rename_keys Q (inverse_dict d) = inr Q'
          ∧ _atoms Q' = _atoms self.
Proof.
  destruct (rename_keys_ok self d Hwf Hinj Hkeys) as (Q & HQ & Hall & HwfQ).
  assert (dict_values (inverse_dict d) = dict_keys d) as Hvalues.
  { unfold dict_values, dict_keys, inverse_dict. rewrite <-list_fmap_compose.
    by apply list_fmap_ext. }
  assert (dict_keys (inverse_dict d) = dict_values d) as Hkeys'.
  { unfold dict_values, dict_keys, inverse_dict. rewrite <-list_fmap_compose.
    by apply list_fmap_ext. }
  assert (∀ k v, dict_get k d = Some v → dict_get v (inverse_dict d) = Some k) as Hinv.
  { intros k v Hget%dict_get_Some_elem_of. apply dict_get_elem_of.
    - unfold dict_wf. by rewrite Hkeys'.
    - apply list_elem_of_fmap. by exists (k, v). }
  destruct (rename_keys_ok Q (inverse_dict d)) as (Q' & HQ' & Hall' & _).
  { done. }
  { by rewrite Hvalues. }
  { intros k' ([k0 p] & -> & [i Hi]%list_elem_of_lookup_1)%list_elem_of_fmap.
    destruct (Forall2_lookup_r _ _ _ i _ Hall Hi) as ([k p0] & _ & Hk & _).
    simpl in *. rewrite Hkeys'. apply list_elem_of_fmap. exists (k, k0).
    split; [done|]. by apply dict_get_Some_elem_of. }
  exists Q, Q'. split; [done|]. split; [done|].
  clear HQ HQ' Hwf HwfQ Hkeys. revert Hall Hall'.
  generalize (_atoms self) (_atoms Q) (_atoms Q'). intros l1 l2 l3 H12.
  revert l3. induction H12 as [|[k p] [k' q] l1 l2 [Hk Hq] _ IH]; intros l3 H23.
  - by apply Forall2_nil_inv_l in H23.
  - apply Forall2_cons_inv_l in H23 as ([k'' q'] & l3' & [Hk' Hq'] & H23 & ->).
    simpl in *. rewrite (Hinv k k' Hk) in Hk'. simplify_eq. f_equal. by apply IH.
Qed.

End rename_facts.

(** ** More on transformations, refinements and coding *)

Section more_engine_facts.
Context {R Vol Ring Poly : Type} `{PolyhedronOps R Vol Ring Poly}.
Context `{EqDecision Vol} `{Countable Poly} `{VolumeOps Vol}.
Implicit Types (self other P Q : PolyhedronPartition Ring Poly) (p q : Poly).

Abbreviation outcome := (sum (exn R Vol)).

Lemma apply_transformation_loop_returns (trans : Poly → outcome Poly)
    (items : list (key * Poly)) :
  ∀ d, (∃ d', apply_transformation_loop trans items d = inr d')
       ↔ ∀ p, p ∈ dict_values items → ∃ q, trans p = inr q ∧ volume p = volume q.
Proof.
  unfold dict_values. induction items as [|[k p] items IH]; intros d; simpl.
  - split; [|eauto]. intros _ p Hp. by apply elem_of_nil in Hp.
  - split.
    + intros [d' Hd'] p0 Hp0. destruct (trans p) as [e|q] eqn:Hq; [done|].
      simpl in Hd'. case_decide as Hvol; [|done].
      apply elem_of_cons in Hp0 as [->|Hp0]; [eauto|].
      by apply (proj1 (IH _) (ex_intro _ d' Hd')).
    + intros Hall. destruct (Hall p) as (q & Hq & Hvol); [left|].
      rewrite Hq. simpl. rewrite decide_True by done.
      apply IH. intros p0 Hp0. apply Hall. by right.
Qed.

Lemma apply_transformation_loop_raises (trans : Poly → outcome Poly)
    (items : list (key * Poly)) :
  (∀ p, p ∈ dict_values items → ∃ q, trans p = inr q) →
  ∀ d, (∃ d', apply_transformation_loop trans items d = inr d')
       ∨ apply_transformation_loop trans items d = inl AssertionError.
Proof.
  unfold dict_values. induction items as [|[k p] items IH]; intros Hall d; simpl.
  - eauto.
  - destruct (Hall p) as [q Hq]; [left|]. rewrite Hq. simpl.
    case_decide; [|by right]. apply IH. intros p0 Hp0. apply Hall. by right.
Qed.

(** X7: [apply_transformation] returns exactly when [trans] returns on
    every atom with the volume unchanged; when [trans] returns on every
    atom and changes the volume of one, the call raises
    [AssertionError]. *)
Theorem apply_transformation_returns_iff P (trans : Poly → outcome Poly) :
  ((∃ Q, apply_transformation P trans = inr Q)
   ↔ ∀ p, p ∈ atoms P → ∃ q, trans p = inr q ∧ volume p = volume q)
  ∧ ((∀ p, p ∈ atoms P → ∃ q, trans p = inr q) →
     (∃ p q, p ∈ atoms P ∧ trans p = inr q ∧ volume p ≠ volume q) →
     apply_transformation P trans = inl AssertionError).
Proof.
  unfold apply_transformation, atoms, __iter__. split.
  - rewrite <-(apply_transformation_loop_returns trans (_atoms P) []). split.
    + intros [Q HQ]. destruct (apply_transformation_loop _ _ _) as [e|d']; [done|eauto].
    + intros [d' ->]. simpl. eauto.
  - intros Hall (p & q & Hp & Hq & Hvol).
    destruct (apply_transformation_loop_raises trans (_atoms P) Hall [])
      as [Hret| ->]; [|done].
    pose proof (proj1 (apply_transformation_loop_returns trans (_atoms P) []) Hret)
      as Hkept.
    destruct (Hkept p Hp) as (q' & Hq' & Hvol'). congruence.
Qed.

Lemma apply_transformation_result self (trans : Poly → outcome Poly) items' :
  dict_wf (_atoms self) →
  Forall2 (transforms trans) (_atoms self) items' →
  apply_transformation self trans = __init__ (PyDict items') None.
Proof.
  intros Hwf Hall. unfold apply_transformation, __iter__.
  by rewrite (apply_transformation_loop_ok trans _ items' []).
Qed.

Lemma apply_transformation_inv self (trans : Poly → outcome Poly) Q :
  dict_wf (_atoms self) →
  apply_transformation self trans = inr Q →
  Forall2 (transforms trans) (_atoms self) (_atoms Q).
Proof.
  intros Hwf HQ.
  destruct (transforms_exists trans (_atoms self)) as [items' Hall].
  { apply (apply_transformation_loop_returns trans (_atoms self) []).
    unfold apply_transformation, __iter__ in HQ.
    destruct (apply_transformation_loop _ _ _) as [e|d']; [done|eauto]. }
  rewrite (apply_transformation_result self trans items') in HQ by done.
  simpl in HQ. injection HQ as <-. exact Hall.
Qed.

Lemma transforms_values (trans : Poly → outcome Poly) (items items' : list (key * Poly)) :
  Forall2 (transforms trans) items items' →
  volume <$> dict_values items' = volume <$> dict_values items.
Proof.
  unfold dict_values. induction 1 as [|[k p] [k' q] items items' (_ & _ & Hvol) _ IH];
    simpl in *; [done|]. rewrite Hvol. f_equal. exact IH.
Qed.

(** X8: two calls of [apply_transformation] in a row return what one call
    with the composed function returns. *)
Theorem apply_transformation_compose P Q Q' (f g : Poly → outcome Poly)
    (Hwf : dict_wf (_atoms P))
    (Hf : apply_transformation P f = inr Q)
    (Hg : apply_transformation Q g = inr Q') :
  apply_transformation P (λ p, f p ≫= g) = inr Q'.
Proof.
  pose proof (apply_transformation_inv P f Q Hwf Hf) as Hfirst.
  assert (dict_wf (_atoms Q)) as HwfQ.
  { unfold dict_wf. by rewrite (transforms_keys f _ _ Hfirst). }
  pose proof (apply_transformation_inv Q g Q' HwfQ Hg) as Hsecond.
  rewrite (apply_transformation_result Q g (_atoms Q')) in Hg by done.
  rewrite (apply_transformation_result P _ (_atoms Q')); [done|done|].
  clear Hf Hg Hwf HwfQ. revert Hfirst Hsecond.
  generalize (_atoms P) (_atoms Q) (_atoms Q'). intros l1 l2 l3 H12. revert l3.
  induction H12 as [|[k p] [k' q] l1 l2 (Hk & Hq & Hvol) _ IH]; intros l3 H23.
  - apply Forall2_nil_inv_l in H23 as ->. constructor.
  - apply Forall2_cons_inv_l in H23 as ([k'' q'] & l3' & (Hk' & Hq' & Hvol') & H23 & ->).
    simpl in *. constructor; [|by apply IH].
    split; [simpl; congruence|]. simpl. rewrite Hq. simpl.
    split; [done|congruence].
Qed.

(** X9: the partition [apply_transformation] returns has the volume of
    the partition it is applied to. *)
Theorem apply_transformation_volume P Q (trans : Poly → outcome Poly)
    (Hwf : dict_wf (_atoms P))
    (HQ : apply_transformation P trans = inr Q) :
  PolyhedronPartition_volume Q = PolyhedronPartition_volume P.
Proof.
  pose proof (apply_transformation_inv P trans Q Hwf HQ) as Hall.
  unfold PolyhedronPartition_volume, atoms.
  by rewrite (transforms_values trans _ _ Hall).
Qed.



(** X11: when the intersection of an atom of [self] and an atom of
    [other] does not depend on the order of the two, [refinement(self,
    other)] and [refinement(other, self)] are equal partitions. *)
Theorem refinement_comm self other
    (Hcomm : ∀ p q, p ∈ atoms self → q ∈ atoms other →
               intersection p q = intersection q p) :
  ∃ Q Q', refinement self other = inr Q
          ∧ refinement other self = inr Q'
          ∧ __eq__ Q Q' = true.
Proof.
  destruct (refinement_atoms self other) as (Q & HQ & Hatoms).
  destruct (refinement_atoms other self) as (Q' & HQ' & Hatoms').
  exists Q, Q'. split; [done|]. split; [done|].
  unfold __eq__, cached_atoms_set. apply bool_decide_eq_true, set_eq. intros x.
  rewrite !elem_of_list_to_set, Hatoms, Hatoms'.
  split; intros (Hpos & p & q & Hp & Hq & ->); (split; [done|]); exists q, p.
  - by rewrite Hcomm.
  - by rewrite <-Hcomm.
Qed.



End more_engine_facts.

(** ** Renaming by a key permutation *)


Section permutation_rename_facts.
Context {R Vol Ring Poly : Type} `{PolyhedronOps R Vol Ring Poly}.
Context `{EqDecision Vol} `{Countable Poly}.
Implicit Types (self other P Q : PolyhedronPartition Ring Poly) (p q : Poly).





End permutation_rename_facts.

(** ** More on the induction on a half-space *)

Lemma StronglySorted_snoc (l : list Z) (t : Z) :
  StronglySorted Z.lt l → Forall (λ x, (x < t)%Z) l → StronglySorted Z.lt (l ++ [t]).
Proof.
  induction 1 as [|a l Hl IH Ha]; intros Hlt; simpl.
  - repeat constructor.
  - apply Forall_cons in Hlt as [Hat Hlt]. constructor; [by apply IH|].
    apply Forall_app. split; [done|]. by constructor.
Qed.

Lemma StronglySorted_lt_NoDup (l : list Z) : StronglySorted Z.lt l → NoDup l.
Proof.
  induction 1 as [|a l Hl IH Ha]; constructor; [|done].
  intros Hin. pose proof (proj1 (Forall_forall _ _) Ha a Hin). lia.
Qed.

Section more_induction_facts.
Context {R Vol Ring Poly : Type} `{PolyhedronOps R Vol Ring Poly}.
Context `{EqDecision Vol} `{Countable Poly}.
Implicit Types (self other P Q : PolyhedronPartition Ring Poly) (p q : Poly).

Abbreviation outcome := (sum (exn R Vol)).

Lemma refinement_keys self other Q :
  refinement self other = inr Q →
  dict_keys (_atoms Q) = itertools_count (__len__ Q).
Proof.
  unfold refinement. simpl. intros [= <-]. simpl. unfold __len__. simpl.
  rewrite enumerate_keys. f_equal. unfold enumerate. by rewrite length_imap.
Qed.

Lemma recorded_weaken half bound bound' (tQ : Z * PolyhedronPartition Ring Poly) :
  (bound ≤ bound')%Z → recorded half bound tQ → recorded half bound' tQ.
Proof. intros Hle (Ht & Hrest). split; [lia|done]. Qed.

Lemma induced_out_step_ans self half_part other_half_part
    (trans : Poly → outcome Poly) P level ans P' ans' :
  induced_out_step self half_part other_half_part trans P level ans = inr (P', ans') →
  ∃ P_returned, refinement P half_part = inr P_returned
    ∧ ans' = if decide (__len__ P_returned = 0%nat) then ans
             else dict_set level P_returned ans.
Proof.
  unfold induced_out_step.
  destruct (refinement_atoms P half_part) as (P_returned & -> & _).
  destruct (refinement_atoms P other_half_part) as (P1 & -> & _).
  unfold mbind, sum_mbind. cbv beta iota.
  destruct (refinement_atoms P1 self) as (P2 & -> & _).
  destruct (apply_transformation P2 trans) as [e|P3]; [intros [=]|].
  intros [= <- <-]. eauto.
Qed.

Lemma induced_out_loop_recorded self half_part other_half_part half
    (trans : Poly → outcome Poly) :
  atoms half_part = [half] →
  ∀ fuel P level ans res,
    (1 ≤ level)%Z →
    StronglySorted Z.lt (dict_keys ans) →
    Forall (recorded half level) ans →
    induced_out_loop fuel self half_part other_half_part trans P level ans
      = Some (inr res) →
    StronglySorted Z.lt (dict_keys res)
    ∧ Forall (recorded half (level + Z.of_nat fuel)) res.
Proof.
  intros Hhalf.
  induction fuel as [|fuel IH]; intros P level ans res Hlevel Hsorted Hall;
    simpl; case_decide as Hlen.
  - intros [= <-]. split; [done|].
    eapply Forall_impl; [exact Hall|]. intros tQ. apply recorded_weaken. lia.
  - done.
  - intros [= <-]. split; [done|].
    eapply Forall_impl; [exact Hall|]. intros tQ. apply recorded_weaken. lia.
  - destruct (induced_out_step _ _ _ _ _ _ _) as [e|[P' ans']] eqn:Hstep; [done|].
    apply induced_out_step_ans in Hstep as (P_returned & Hret & ->).
    intros Hloop.
    assert (level ∉ dict_keys ans) as Hfresh.
    { intros ([t Q] & -> & Hin)%list_elem_of_fmap.
      destruct (proj1 (Forall_forall _ _) Hall _ Hin) as [Ht _]. simpl in Ht. lia. }
    assert (Forall (recorded half (level + 1)) ans) as Hall'.
    { eapply Forall_impl; [exact Hall|]. intros tQ. apply recorded_weaken. lia. }
    apply IH in Hloop.
    + destruct Hloop as [Hres Hrec]. split; [done|].
      eapply Forall_impl; [exact Hrec|]. intros tQ. apply recorded_weaken. lia.
    + lia.
    + case_decide; [done|]. rewrite (dict_set_fresh ans level P_returned Hfresh).
      unfold dict_keys in *. rewrite fmap_app. apply StronglySorted_snoc; [done|].
      apply Forall_fmap. eapply Forall_impl; [exact Hall|].
      intros tQ [Ht _]. simpl. lia.
    + case_decide as Hempty; [done|].
      rewrite (dict_set_fresh ans level P_returned Hfresh).
      apply Forall_app. split; [done|]. constructor; [|constructor].
      destruct (refinement_atoms P half_part) as (Q & HQ & Hatoms).
      assert (Q = P_returned) as -> by congruence.
      split; [simpl; lia|]. split; [done|]. split; [by eapply refinement_keys|].
      intros x (Hpos & p0 & q0 & _ & Hq0 & ->)%Hatoms. split; [done|].
      rewrite Hhalf in Hq0. apply list_elem_of_singleton in Hq0 as ->. eauto.
Qed.

Lemma induced_out_partition_unfold fuel self (trans : Poly → outcome Poly)
    (ieq : list R) res :
  induced_out_partition fuel self trans ieq = Some (inr res) →
  ∃ half_part other_half_part P,
    atoms half_part = [Polyhedron_ieqs [ieq]]
    ∧ induced_out_loop fuel self half_part other_half_part trans P 1%Z []
      = Some (inr res).
Proof.
  unfold induced_out_partition.
  destruct (_ ≫= _) as [e|[[half_part other_half_part] P]] eqn:Hstart; [done|].
  intros Hloop. exists half_part, other_half_part, P. split; [|done].
  simpl in Hstart. case_decide; [done|].
  destruct (apply_transformation _ trans) as [e|P']; [done|].
  simpl in Hstart. injection Hstart as <- _ _. reflexivity.
Qed.


Lemma apply_transformation_times_inv n (trans_inv : Poly → outcome Poly) :
  ∀ P P', dict_wf (_atoms P) →
    apply_transformation_times n trans_inv P = inr P' →
    dict_keys (_atoms P') = dict_keys (_atoms P)
    ∧ volume <$> atoms P' = volume <$> atoms P.
Proof.
  induction n as [|n IH]; intros P P' Hwf; simpl.
  - by intros [= <-].
  - destruct (apply_transformation P trans_inv) as [e|P1] eqn:HP1; [done|]. simpl.
    pose proof (apply_transformation_inv P trans_inv P1 Hwf HP1) as Hall.
    intros Hrest. apply IH in Hrest as [Hkeys Hvol].
    + rewrite Hkeys, Hvol. split; [by apply (transforms_keys trans_inv)|].
      unfold atoms. by apply (transforms_values trans_inv).
    + unfold dict_wf. by rewrite (transforms_keys trans_inv _ _ Hall).
Qed.

Lemma induced_in_loop_inv (trans_inv : Poly → outcome Poly)
    (items : list (Z * PolyhedronPartition Ring Poly)) :
  ∀ acc res,
    NoDup (dict_keys acc ++ dict_keys items) →
    Forall (λ tQ, dict_wf (_atoms tQ.2)) items →
    induced_in_loop trans_inv items acc = inr res →
    ∃ items', res = acc ++ items' ∧ Forall2 pulled_back items items'.
Proof.
  unfold dict_keys.
  induction items as [|[t Q] items IH]; intros acc res Hnd Hwf; simpl.
  - intros [= <-]. exists []. split; [by rewrite app_nil_r|constructor].
  - apply Forall_cons in Hwf as [HwfQ Hwf]. simpl in HwfQ.
    destruct (apply_transformation_times _ trans_inv Q) as [e|Q'] eqn:HQ'; [done|].
    simpl. apply apply_transformation_times_inv in HQ' as [Hkeys Hvol]; [|done].
    rewrite dict_set_fresh.
    + intros Hrest. apply IH in Hrest as (items' & -> & Hall); [| |done].
      * exists ((t, Q') :: items'). split; [by rewrite <-app_assoc|].
        by constructor.
      * rewrite fmap_app. simpl. by rewrite <-app_assoc.
    + apply NoDup_app in Hnd as (_ & Hacc & _). intros Hin. apply (Hacc t Hin). left.
Qed.

(** X16: when [induced_in_partition] returns, the dict it returns has the
    return times of the dict of [induced_out_partition], in the same order,
    and under each of them a partition with the same keys and with atoms of
    the same volumes. *)
Theorem induced_in_partition_spec fuel self (trans trans_inv : Poly → outcome Poly)
    (ieq : list R) in_partition
    (Hret : induced_in_partition fuel self trans trans_inv ieq
            = Some (inr in_partition)) :
  ∃ out_partition,
    induced_out_partition fuel self trans ieq = Some (inr out_partition)
    ∧ Forall2 (λ tQ tP,
        tP.1 = tQ.1
        ∧ dict_keys (_atoms tP.2) = dict_keys (_atoms tQ.2)
        ∧ volume <$> atoms tP.2 = volume <$> atoms tQ.2) out_partition in_partition.
Proof.
  unfold induced_in_partition in Hret.
  destruct (induced_out_partition fuel self trans ieq) as [[e|out_partition]|] eqn:Hout;
    [done| |done].
  injection Hret as Hret. exists out_partition. split; [done|].
  destruct (induced_out_partition_unfold _ _ _ _ _ Hout)
    as (half_part & other_half_part & P & Hhalf & Hloop).
  apply (induced_out_loop_recorded self half_part other_half_part _ trans Hhalf)
    in Hloop as [Hsorted Hall]; [|lia|constructor|constructor].
  apply induced_in_loop_inv in Hret as (items' & -> & Hpulled).
  - exact Hpulled.
  - simpl. by apply StronglySorted_lt_NoDup.
  - eapply Forall_impl; [exact Hall|]. intros tQ (_ & _ & Hkeys & _).
    unfold dict_wf. rewrite Hkeys. apply itertools_count_NoDup.
Qed.

(** X17: when no atom meets the half-space of [ieq] in positive volume,
    [induced_in_partition] and [induced_partition] raise the [ValueError]
    of [induced_out_partition], whatever the two transformations. *)
Theorem induced_partition_empty self (ieq : list R) half_part P0
    (Hhalf : __init__ (PyList [Polyhedron_ieqs [ieq]]) None = inr half_part)
    (Hrefine : refinement self half_part = inr P0)
    (Hempty : __len__ P0 = 0%nat) :
  ∀ (fuel : nat) (trans trans_inv : Poly → outcome Poly),
    induced_in_partition fuel self trans trans_inv ieq =
      Some (inl (ValueError (DoesNotIntersect ieq (__len__ self))))
    ∧ induced_partition fuel self trans trans_inv ieq =
        Some (inl (ValueError (DoesNotIntersect ieq (__len__ self)))).
Proof.
  intros fuel trans trans_inv.
  assert (induced_out_partition fuel self trans ieq =
            Some (inl (ValueError (DoesNotIntersect ieq (__len__ self))))) as Hout.
  { unfold induced_out_partition. rewrite Hhalf. simpl. simpl in Hhalf.
    injection Hhalf as <-. unfold refinement in Hrefine |- *. simpl in Hrefine |- *.
    injection Hrefine as <-. unfold __len__ in Hempty |- *. simpl in Hempty |- *.
    by rewrite decide_True. }
  unfold induced_partition, induced_in_partition. by rewrite Hout.
Qed.

End more_induction_facts.

(** ** The induced partition and its substitution *)

Section dict_set_facts.
Context {K V : Type} `{EqDecision K}.
Implicit Types (d : dict K V) (k : K) (v : V).



End dict_set_facts.


Section induced_partition_facts.
Context {R Vol Ring Poly : Type} `{PolyhedronOps R Vol Ring Poly}.
Context `{EqDecision Vol} `{Countable Poly} `{VolumeOps Vol}.
Implicit Types (self other P Q : PolyhedronPartition Ring Poly) (p q : Poly).

Abbreviation outcome := (sum (exn R Vol)).












End induced_partition_facts.

(** ** Affine images, rotations, and a partition against itself *)

Section affine_facts.
Context {R Vol Ring Poly : Type} `{PolyhedronOps R Vol Ring Poly}.
Context `{EqDecision Vol} `{Countable Poly} `{PolyhedronAffine R Poly}.
Implicit Types (self other P Q : PolyhedronPartition Ring Poly) (p q : Poly).

Abbreviation outcome := (sum (exn R Vol)).



Lemma imap_alter {A} (f : A → A) (i : nat) (v : list A) :
  imap (λ j vj, if decide (j = i) then f vj else vj) v = alter f i v.
Proof.
  apply list_eq. intros j. rewrite list_lookup_imap.
  destruct (decide (j = i)) as [->|Hne].
  - rewrite list_lookup_alter_eq. by destruct (v !! i).
  - rewrite list_lookup_alter_ne by done. by destruct (v !! j).
Qed.

Lemma all_below_true (i : nat) (bound : R) (vs : list (list R)) :
  Forall (λ v, ∃ vi, v !! i = Some vi ∧ r_leb vi bound = true) vs →
  all_below (Vol := Vol) i bound vs = inr true.
Proof.
  induction 1 as [|v vs (vi & Hvi & Hle) _ IH]; simpl; [done|].
  by rewrite Hvi, Hle.
Qed.

Lemma all_below_false (i : nat) (bound : R) (vs : list (list R)) :
  Forall (λ v, is_Some (v !! i)) vs →
  Exists (λ v, ∃ vi, v !! i = Some vi ∧ r_leb vi bound = false) vs →
  all_below (Vol := Vol) i bound vs = inr false.
Proof.
  intros Hall Hex. induction Hex as [v vs (vi & Hvi & Hle)|v vs Hex IH]; simpl.
  - by rewrite Hvi, Hle.
  - apply Forall_cons in Hall as [[vi Hvi] Hall]. rewrite Hvi.
    destruct (r_leb vi bound); [by apply IH|done].
Qed.

(** X20: the function [rotation_mod] returns moves all the vertices of a
    polyhedron by one translation along the coordinate [i], and leaves the
    other coordinates as they are: by [angle] when every vertex is at most
    [mod - angle] in that coordinate, by [angle - mod] when one vertex is
    above.  It raises [IndexError] when the first vertex has no coordinate
    [i]. *)
Theorem rotation_mod_spec (i : nat) (angle mod_ : R) (ring : Ring) p :
  (Forall (λ v, ∃ vi, v !! i = Some vi ∧ r_leb vi (r_sub mod_ angle) = true)
     (vertices p) →
   rotation_mod i angle mod_ ring p =
     inr (Polyhedron_vertices
            (alter (λ x, r_add x angle) i <$> vertices p) ring))
  ∧ (Forall (λ v, is_Some (v !! i)) (vertices p) →
     Exists (λ v, ∃ vi, v !! i = Some vi ∧ r_leb vi (r_sub mod_ angle) = false)
       (vertices p) →
     rotation_mod i angle mod_ ring p =
       inr (Polyhedron_vertices
              (alter (λ x, r_sub (r_add x angle) mod_) i <$> vertices p) ring))
  ∧ (∀ v vs, vertices p = v :: vs → v !! i = None →
     rotation_mod i angle mod_ ring p = inl IndexError).
Proof.
  unfold rotation_mod. split; [|split].
  - intros Hall. rewrite (all_below_true _ _ _ Hall). simpl. do 2 f_equal.
    apply list_fmap_ext. intros _ v _. apply imap_alter.
  - intros Hall Hex. rewrite (all_below_false _ _ _ Hall Hex). simpl. do 2 f_equal.
    apply list_fmap_ext. intros _ v _. apply imap_alter.
  - intros v vs -> Hv. simpl. by rewrite Hv.
Qed.

(** X21: a partition in which each atom lies in no other atom is sent to
    itself by [keys_permutation]: every key is sent to itself. *)
Theorem keys_permutation_self P
    (Hwf : dict_wf (_atoms P))
    (Hrefl : ∀ p, p ∈ atoms P → poly_le p p = true)
    (Hunamb : ∀ p k1 k2 a1 a2, p ∈ atoms P →
       dict_get k1 (_atoms P) = Some a1 → dict_get k2 (_atoms P) = Some a2 →
       poly_le p a1 = true → poly_le p a2 = true → k1 = k2) :
  keys_permutation P P = inr ((λ kp, (kp.1, kp.1)) <$> _atoms P).
Proof.
  assert (∀ items (d : dict key key),
            (∀ kp, kp ∈ items → kp ∈ _atoms P) →
            NoDup (dict_keys d ++ dict_keys items) →
            keys_permutation_match P items d []
            = inr (d ++ ((λ kp, (kp.1, kp.1)) <$> items), [])) as Hloop.
  { unfold dict_keys. induction items as [|[k p] items IH]; intros d Hin Hnd; simpl.
    - by rewrite app_nil_r.
    - assert ((k, p) ∈ _atoms P) as Hkp by (apply Hin; left).
      assert (p ∈ atoms P) as Hp.
      { apply list_elem_of_fmap. by exists (k, p). }
      rewrite (proj2 (contains_atoms P p) Hp).
      assert (code P p = inr k) as ->.
      { apply code_unique; [done| |].
        - exists p. split; [by apply dict_get_elem_of|auto].
        - intros k' a' Hget' Hle'. apply (Hunamb p k' k a' p); auto.
          by apply dict_get_elem_of. }
      simpl. rewrite dict_set_fresh.
      + rewrite IH; [by rewrite <-app_assoc| |].
        * intros kp Hkp'. apply Hin. by right.
        * rewrite fmap_app. simpl. by rewrite <-app_assoc.
      + apply NoDup_app in Hnd as (_ & Hd & _). intros Hk. apply (Hd k Hk). left. }
  unfold keys_permutation, __iter__. by rewrite Hloop.
Qed.

End affine_facts.

(** ** Equality and items *)

Section container_facts.
Context {R Vol Ring Poly : Type} `{PolyhedronOps R Vol Ring Poly}.
Context `{EqDecision Vol} `{Countable Poly}.
Implicit Types (self other third : PolyhedronPartition Ring Poly).

Lemma eq_atoms self other :
  __eq__ self other = true ↔ ∀ p, p ∈ atoms self ↔ p ∈ atoms other.
Proof.
  unfold __eq__, cached_atoms_set. rewrite bool_decide_eq_true. split.
  - intros Heq p. by rewrite <- !(elem_of_list_to_set (C := gset Poly)), Heq.
  - intros Hall. apply set_eq. intros p. by rewrite !elem_of_list_to_set.
Qed.

(** X22: [==] does not consider the coding: two partitions are equal
    exactly when they have the same atoms, whatever the keys, the order
    and the repetitions, that is when [in] answers the same for both on
    every polyhedron; it is reflexive, symmetric and transitive. *)
Theorem eq_ignores_coding self other third :
  (__eq__ self other = true ↔ ∀ p, p ∈ atoms self ↔ p ∈ atoms other)
  ∧ (__eq__ self other = true ↔ ∀ p, __contains__ self p = __contains__ other p)
  ∧ (atoms self ≡ₚ atoms other → __eq__ self other = true)
  ∧ __eq__ self self = true
  ∧ __eq__ self other = __eq__ other self
  ∧ (__eq__ self other = true → __eq__ other third = true →
     __eq__ self third = true).
Proof.
  split; [apply eq_atoms|]. split; [|split; [|split; [|split]]].
  - rewrite eq_atoms. split.
    + intros Hall p. apply eq_true_iff_eq. by rewrite !contains_atoms.
    + intros Hall p. by rewrite <- !contains_atoms, Hall.
  - intros Hperm. apply eq_atoms. intros p. by rewrite Hperm.
  - by apply eq_atoms.
  - apply eq_true_iff_eq. rewrite !eq_atoms. split; intros Hall p; by rewrite Hall.
  - rewrite !eq_atoms. intros H12 H23 p. by rewrite H12.
Qed.

(** X23: in the partition built from a list of [n] atoms, [P[i]] is the
    i-th atom of the list for [0 <= i < n]; for any other key it raises
    [KeyError], also for a negative integer, which a list would accept. *)
Theorem getitem_of_list (l : list Poly) (br : option Ring) :
  ∃ P, __init__ (PyList l) br = inr P
    ∧ __len__ P = length l
    ∧ (∀ (i : nat) p, l !! i = Some p → __getitem__ (R := R) (Vol := Vol) P (KInt (Z.of_nat i)) = inr p)
    ∧ (∀ k, k ∉ itertools_count (length l) → __getitem__ (R := R) (Vol := Vol) P k = inl (KeyError k))
    ∧ (∀ z, (z < 0)%Z → __getitem__ (R := R) (Vol := Vol) P (KInt z) = inl (KeyError (KInt z))).
Proof.
  destruct (init_list l br) as (P & HP & Hatoms).
  assert (∀ k, k ∉ itertools_count (length l) →
               __getitem__ (R := R) (Vol := Vol) P k = inl (KeyError k)) as Hmissing.
  { intros k Hk. unfold __getitem__. rewrite Hatoms.
    rewrite <- enumerate_keys in Hk. apply dict_get_None in Hk. by rewrite Hk. }
  exists P. split; [done|]. split; [|split; [|split]].
  - unfold __len__. rewrite Hatoms.
    rewrite <- (length_fmap fst). fold (dict_keys (enumerate l)).
    rewrite enumerate_keys. unfold itertools_count. by rewrite length_fmap, length_seq.
  - intros i p Hi. unfold __getitem__. by rewrite Hatoms, enumerate_get, Hi.
  - exact Hmissing.
  - intros z Hz. apply Hmissing. unfold itertools_count.
    intros (n & Hn & _)%list_elem_of_fmap. simplify_eq. lia.
Qed.

End container_facts.

(** ** The further examples *)

Module MoreExampleFacts.
Import Planar PlanarMore Examples MoreExamples ExampleFacts.

Lemma P3_wf : dict_wf (_atoms P3).
Proof. unfold dict_wf. by_computation. Qed.

(** Witness of X3. *)
Lemma rename_keys_raises_not_injective_witness :
  KInt 0 ≠ KInt 1 ∧ rename_keys P3 d_twice = inl (NotInjective d_twice).
Proof.
  split; [done|].
  by apply (rename_keys_raises_not_injective P3 d_twice (KInt 0) (KInt 1) (KStr "a")).
Defined.


(** Witness of X5. *)
Lemma rename_keys_missing_key_witness :
  NoDup (dict_values d_short)
  ∧ rename_keys P3 d_short = inl (Raised (KeyError (KInt 1))).
Proof.
  assert (NoDup (dict_values d_short)) as Hinj by by_computation.
  split; [exact Hinj|].
  apply (rename_keys_missing_key P3 d_short [(KInt 0, p')] (KInt 1) q' [(KInt 2, r')]).
  - exact Hinj.
  - reflexivity.
  - apply Forall_forall. by_computation.
  - by_computation.
Defined.

(** Witness of X6. *)
Lemma rename_keys_round_trip_witness :
  dict_wf (_atoms P3) ∧ dict_wf d_baz
  ∧ ∃ Q Q', rename_keys P3 d_baz = inr Q
            ∧ rename_keys Q (inverse_dict d_baz) = inr Q'
            ∧ _atoms Q' = _atoms P3.
Proof.
  assert (dict_wf d_baz) as Hd by (unfold dict_wf; by_computation).
  split; [exact P3_wf|]. split; [exact Hd|].
  apply (rename_keys_round_trip P3 d_baz P3_wf Hd).
  - by_computation.
  - apply Forall_forall. by_computation.
Defined.

(** Witness of X7: the rotation by 1/3 returns on the four atoms and
    keeps their volumes; [collapse] returns on them and changes the volume
    of [p]. *)
Lemma apply_transformation_returns_iff_witness :
  (∃ Q, apply_transformation P u = inr Q)
  ∧ apply_transformation P collapse = inl AssertionError.
Proof.
  destruct (apply_transformation_returns_iff P u) as [[_ Hreturns] _].
  destruct (apply_transformation_returns_iff P collapse) as [_ Hraises].
  split.
  - apply Hreturns.
    apply (proj1 (Forall_forall
             (λ p0, ∃ q0, u p0 = inr q0 ∧ Planar.volume p0 = Planar.volume q0)
             (atoms P))).
    repeat constructor; eexists; (split; [vm_compute; reflexivity|by_computation]).
  - apply Hraises.
    + intros p0 _. by eexists.
    + exists p, (Polyhedron [(0, 0)]%Q). split; [|split; [reflexivity|]].
      * by_computation.
      * by_computation.
Defined.

(** Witness of X8: the rotation by 2/3 and then the rotation by 1/3. *)
Lemma apply_transformation_compose_witness :
  ∃ Q Q', apply_transformation P u_inv = inr Q
          ∧ apply_transformation Q u = inr Q'
          ∧ apply_transformation P (λ p, u_inv p ≫= u) = inr Q'.
Proof.
  assert (∃ Q Q', apply_transformation P u_inv = inr Q
                  ∧ apply_transformation Q u = inr Q') as (Q & Q' & HQ & HQ').
  { eexists _, _. split; [vm_compute; reflexivity|vm_compute; reflexivity]. }
  exists Q, Q'. split; [done|]. split; [done|].
  exact (apply_transformation_compose P Q Q' u_inv u P_wf HQ HQ').
Defined.

(** Witness of X9. *)
Lemma apply_transformation_volume_witness :
  ∃ Q, apply_transformation P u = inr Q
       ∧ PolyhedronPartition_volume Q = PolyhedronPartition_volume P.
Proof.
  assert (∃ Q, apply_transformation P u = inr Q) as [Q HQ].
  { eexists. vm_compute. reflexivity. }
  exists Q. split; [done|]. exact (apply_transformation_volume P Q u P_wf HQ).
Defined.

(** Witness of X11: the example of [refinement]. *)
Lemma refinement_comm_witness :
  ∃ Q Q', refinement P triangles = inr Q
          ∧ refinement triangles P = inr Q'
          ∧ __eq__ Q Q' = true.
Proof.
  apply (refinement_comm P triangles).
  intros p0 q0 Hp Hq. revert q0 Hq.
  apply (proj1 (Forall_forall
           (λ q0, Planar.intersection p0 q0 = Planar.intersection q0 p0)
           (atoms triangles))).
  revert p0 Hp.
  apply (proj1 (Forall_forall
           (λ p0, Forall (λ q0, Planar.intersection p0 q0 = Planar.intersection q0 p0)
                    (atoms triangles))
           (atoms P))).
  by_computation.
Defined.




(** Witness of X16. *)
Lemma induced_in_partition_spec_witness :
  ∃ in_partition out_partition,
    induced_in_partition 3 P u u_inv ieq = Some (inr in_partition)
    ∧ induced_out_partition 3 P u ieq = Some (inr out_partition)
    ∧ length in_partition = length out_partition.
Proof.
  assert (∃ in_partition, induced_in_partition 3 P u u_inv ieq
                          = Some (inr in_partition)) as [in_partition Hin].
  { eexists. vm_compute. reflexivity. }
  destruct (induced_in_partition_spec 3 P u u_inv ieq in_partition Hin)
    as (out_partition & Hout & Hall).
  exists in_partition, out_partition. split; [done|]. split; [done|].
  symmetry. by eapply Forall2_length.
Defined.

(** Witness of X17. *)
Lemma induced_partition_empty_witness :
  ∃ half_part P0,
    __init__ (PyList [Polyhedron_ieqs [ieq4]]) None = inr half_part
    ∧ refinement P half_part = inr P0
    ∧ __len__ P0 = 0%nat
    ∧ induced_partition 0 P u u_inv ieq4 =
        Some (inl (ValueError (DoesNotIntersect ieq4 4))).
Proof.
  eexists _, _. split; [reflexivity|]. split; [reflexivity|].
  split; [vm_compute; reflexivity|].
  eapply (induced_partition_empty P ieq4); [reflexivity|reflexivity|].
  vm_compute. reflexivity.
Defined.



(** Witness of X20: the rotation by 1/3 of the coordinate 0 on the atoms
    [q], below 2/3, and [s], with a vertex above; the coordinate 2 on
    [q]. *)
Lemma rotation_mod_spec_witness :
  u q = inr (Planar.Polyhedron_vertices
               (alter (λ x, x + Q2Qc (1 # 3))%Qc 0%nat <$> Planar.vertices q) QQ)
  ∧ u s = inr (Planar.Polyhedron_vertices
                 (alter (λ x, x + Q2Qc (1 # 3) - Q2Qc 1)%Qc 0%nat
                    <$> Planar.vertices s) QQ)
  ∧ u2 q = inl IndexError.
Proof.
  destruct (rotation_mod_spec 0 (Q2Qc (1 # 3)) (Q2Qc 1) QQ q) as (Hbelow & _ & _).
  destruct (rotation_mod_spec 0 (Q2Qc (1 # 3)) (Q2Qc 1) QQ s) as (_ & Habove & _).
  destruct (rotation_mod_spec 2 (Q2Qc (1 # 3)) (Q2Qc 1) QQ q) as (_ & _ & Hindex).
  split; [|split].
  - apply Hbelow.
    assert (Forall (λ v, match v !! 0%nat with
                         | Some vi => Qc_leb vi (Q2Qc 1 - Q2Qc (1 # 3))%Qc
                         | None => false
                         end = true) (Planar.vertices q)) as Hall by by_computation.
    eapply Forall_impl; [exact Hall|]. intros v Hv. simpl in Hv.
    destruct (v !! 0%nat) as [vi|]; [|done]. by exists vi.
  - apply Habove.
    + assert (Forall (λ v, bool_decide (is_Some (v !! 0%nat)) = true)
                (Planar.vertices s)) as Hall by by_computation.
      eapply Forall_impl; [exact Hall|]. intros v Hv. simpl in Hv.
      by apply bool_decide_eq_true in Hv.
    + assert (Exists (λ v, match v !! 0%nat with
                           | Some vi => negb (Qc_leb vi (Q2Qc 1 - Q2Qc (1 # 3))%Qc)
                           | None => false
                           end = true) (Planar.vertices s)) as Hex by by_computation.
      eapply Exists_impl; [exact Hex|]. intros v Hv. simpl in Hv.
      destruct (v !! 0%nat) as [vi|]; [|done]. exists vi. split; [done|].
      by apply negb_true_iff.
  - assert (∃ v vs, Planar.vertices q = v :: vs ∧ v !! 2%nat = None)
      as (v & vs & Hv & Hi).
    { eexists _, _. split; [vm_compute; reflexivity|reflexivity]. }
    exact (Hindex v vs Hv Hi).
Defined.

(** Witness of X21. *)
Lemma keys_permutation_self_witness :
  dict_wf (_atoms P)
  ∧ keys_permutation P P = inr ((λ kp, (kp.1, kp.1)) <$> _atoms P).
Proof.
  split; [exact P_wf|].
  apply (keys_permutation_self P P_wf).
  - apply Forall_forall. by_computation.
  - intros p0 k1 k2 a1 a2 Hp. revert p0 Hp k1 k2 a1 a2.
    apply (proj1 (Forall_forall
             (λ p0, ∀ k1 k2 a1 a2,
                dict_get k1 (_atoms P) = Some a1 → dict_get k2 (_atoms P) = Some a2 →
                poly_le p0 a1 = true → poly_le p0 a2 = true → k1 = k2)
             (atoms P))).
    apply Forall_forall. intros p0 Hp.
    apply (dict_get_Forall_pairs
             (λ (k1 : key) a1 (k2 : key) a2,
                poly_le p0 a1 = true → poly_le p0 a2 = true → k1 = k2)).
    revert p0 Hp.
    apply (proj1 (Forall_forall
             (λ p0, Forall (λ kv, Forall (λ kv',
                  poly_le p0 kv.2 = true → poly_le p0 kv'.2 = true → kv.1 = kv'.1)
                (_atoms P)) (_atoms P))
             (atoms P))).
    by_computation.
Defined.

End MoreExampleFacts.
